(** * peel: queue commands of bananaq as query plans

    A shallow embedding of [peel/peel.go]: the three commands [QAdd], [QGet]
    and [QAck] build a [core.QueryActions] plan and hand it to the core.  The
    plans are embedded field by field; the core itself (id generation,
    payload storage, the plan interpreter) is an interface here, with one
    instance whose interpreter follows the written description of the plan
    steps. *)

From stdpp Require Import gmap strings list fin_maps sorting.
From Stdlib Require Import ZArith Lia.

Open Scope Z_scope.

(** ** Go's [time] package, as far as peel.go uses it *)
Module time.
(** An instant, counted from the zero [time.Time]. *)
Definition Time := Z.
Definition IsZero (t : Time) : bool := t =? 0.
(** A [time.Duration] is a number of nanoseconds. *)
Definition Duration := Z.
Definition Second : Duration := 1000000000.
End time.

(** ** The types of package [core] that peel.go names *)

(** [core.TS] and [core.ID]: numeric, time derived. *)
Definition TS := Z.
Definition ID := Z.
Definition error := string.

(** [core.Event]; peel.go reads [ID] and documents [Contents]. *)
Record Event := mkEvent { EvID : ID; Contents : string }.

(** [core.Event{}] *)
Definition zeroEvent : Event := mkEvent 0 "".

(** Modelled from the spec: the roles an event collection can play for a
    queue (the declaration of [core.EventSet] and the key helpers of package
    peel are not part of the source at hand). *)
Inductive Role := Available | InProgressByID | InProgressByAck | Redo | Done.

(** Modelled from the spec: the identity of a collection is its base, its
    role, the queue name and, for the per group roles, the consumer group.
    peel.go itself only reads the field [Base]. *)
Record EventSet := mkEventSet {
  Base : string;
  SetRole : Role;
  SetQueue : string;
  SetGroup : option string }.

#[export] Instance Role_eq_dec : EqDecision Role.
Proof. solve_decision. Defined.

#[export] Instance EventSet_eq_dec : EqDecision EventSet.
Proof. solve_decision. Defined.

Definition Role_code (r : Role) : nat :=
  match r with
  | Available => 0 | InProgressByID => 1 | InProgressByAck => 2
  | Redo => 3 | Done => 4
  end%nat.

Definition Role_of_code (n : nat) : Role :=
  match n with
  | 0 => Available | 1 => InProgressByID | 2 => InProgressByAck
  | 3 => Redo | _ => Done
  end%nat.

#[export] Instance Role_countable : Countable Role.
Proof. apply (inj_countable' Role_code Role_of_code). by intros []. Defined.

#[export] Instance EventSet_countable : Countable EventSet.
Proof.
  apply (inj_countable'
           (fun es => (Base es, SetRole es, SetQueue es, SetGroup es))
           (fun t => mkEventSet t.1.1.1 t.1.1.2 t.1.2 t.2)).
  by intros [].
Defined.

(** [core.QueryEventRangeSelect], the fields peel.go sets plus [MaxExcl]. *)
Record QueryEventRangeSelect := mkRangeSelect {
  Min : TS;
  MinExcl : bool;
  Max : TS;
  MaxExcl : bool;
  MinFromInput : bool;
  Limit : Z;
  Reverse : bool }.

(** [core.QueryEventScoreSelect] *)
Record QueryEventScoreSelect := mkScoreSelect {
  ScoreEvent : Event;
  ScoreMin : TS }.

(** [core.QuerySelector]; a nil pointer is [None], a nil slice is [[]]. *)
Record QuerySelector := mkSelector {
  SelEventSet : EventSet;
  SelRange : option QueryEventRangeSelect;
  SelScore : option QueryEventScoreSelect;
  PosRangeSelect : list Z;
  Events : list Event;
  Union : bool }.

(** [core.QueryAddTo]; [Score] zero means no override. *)
Record QueryAddTo := mkAddTo {
  EventSets : list EventSet;
  Score : TS }.

(** [core.QueryConditional] *)
#[warnings="-register-all"] Inductive QueryConditional := mkCond {
  IfInput : bool;
  IfNoInput : bool;
  IfEmpty : option EventSet;
  And : list QueryConditional }.

(** The zero conditional: the step always applies. *)
Definition noCond : QueryConditional := mkCond false false None [].

(** [core.QueryAction] *)
Record QueryAction := mkAction {
  ActSelector : option QuerySelector;
  ActAddTo : option QueryAddTo;
  RemoveFrom : list EventSet;
  Break : bool;
  Cond : QueryConditional }.

(** [core.QueryActions] *)
Record QueryActions := mkActions {
  EventSetBase : string;
  Actions : list QueryAction;
  Now : time.Time }.

(** The struct literals of peel.go set one member of an action each. *)
Definition selectAction (qs : QuerySelector) (c : QueryConditional) : QueryAction :=
  mkAction (Some qs) None [] false c.
Definition addToAction (a : QueryAddTo) : QueryAction :=
  mkAction None (Some a) [] false noCond.
Definition removeFromAction (ess : list EventSet) : QueryAction :=
  mkAction None None ess false noCond.
Definition breakAction (c : QueryConditional) : QueryAction :=
  mkAction None None [] true c.

Definition rangeSelector (es : EventSet) (r : QueryEventRangeSelect) (union : bool)
  : QuerySelector := mkSelector es (Some r) None [] [] union.
Definition scoreSelector (es : EventSet) (q : QueryEventScoreSelect) : QuerySelector :=
  mkSelector es None (Some q) [] [] false.
Definition posSelector (es : EventSet) (pos : list Z) : QuerySelector :=
  mkSelector es None None pos [] false.
Definition eventsSelector (es : EventSet) (ee : list Event) : QuerySelector :=
  mkSelector es None None [] ee false.

(** ** What peel.go calls on the core

    [p.c.NewEvent], [p.c.SetEvent], [p.c.Query], [p.c.GetEvent] and
    [core.NewTS], over a store that every call may change.  A Go result
    [(v, err)] is the pair of [v] and an optional error, nil being [None]. *)
Class Core (Store : Type) := {
  NewTS : time.Time -> TS;
  NewEvent : time.Time -> string -> Store -> Store * (Event * option error);
  SetEvent : Event -> time.Duration -> Store -> Store * option error;
  Query : QueryActions -> Store -> Store * (list Event * option error);
  GetEvent : ID -> Store -> Store * (Event * option error) }.

(** ** Package peel *)

(** Modelled from the spec: the five collections of a queue (the key helpers
    [queueAvailable] ... [queueDone] live in a file that is not at hand).
    [available] is per queue, the other four per queue and consumer group. *)
Definition queueAvailable (queue : string) : EventSet :=
  mkEventSet queue Available queue None.
Definition queueInProgressByID (queue cgroup : string) : EventSet :=
  mkEventSet queue InProgressByID queue (Some cgroup).
Definition queueInProgressByAck (queue cgroup : string) : EventSet :=
  mkEventSet queue InProgressByAck queue (Some cgroup).
Definition queueRedo (queue cgroup : string) : EventSet :=
  mkEventSet queue Redo queue (Some cgroup).
Definition queueDone (queue cgroup : string) : EventSet :=
  mkEventSet queue Done queue (Some cgroup).

Record Client := mkClient { ClientID : string }.

Record QAddCommand := mkQAdd {
  QAddClient : Client;
  QAddQueue : string;
  Expire : time.Time;
  QAddContents : string }.

Record QGetCommand := mkQGet {
  QGetClient : Client;
  QGetQueue : string;
  QGetConsumerGroup : string;
  AckDeadline : time.Time }.

Record QAckCommand := mkQAck {
  QAckClient : Client;
  QAckQueue : string;
  QAckConsumerGroup : string;
  QAckEvent : Event }.

Section Peel.
Context {Store : Type} `{Core Store}.

(** The plan of [QAdd] for the event [e] that [NewEvent] produced. *)
Definition QAddActions (c : QAddCommand) (e : Event) : QueryActions :=
  let es := queueAvailable (QAddQueue c) in
  {| EventSetBase := Base es;
     Actions :=
       [ selectAction (eventsSelector es [e]) noCond;
         addToAction {| EventSets := [es]; Score := 0 |} ];
     Now := 0 |}.

Definition QAdd (c : QAddCommand) (st : Store) : Store * (ID * option error) :=
  let '(st1, (e, err)) := NewEvent (Expire c) (QAddContents c) st in
  match err with
  | Some x => (st1, (0, Some x))
  | None =>
    let '(st2, err) := SetEvent e (30 * time.Second) st1 in
    match err with
    | Some x => (st2, (0, Some x))
    | None =>
      let '(st3, (_, err)) := Query (QAddActions c e) st2 in
      match err with
      | Some x => (st3, (0, Some x))
      | None => (st3, (EvID e, None))
      end
    end
  end.

(** [inProgOrDone] of [QGet] *)
Definition inProgOrDone (c : QGetCommand) : list QueryAction :=
  let esInProgID := queueInProgressByID (QGetQueue c) (QGetConsumerGroup c) in
  let esInProgAck := queueInProgressByAck (QGetQueue c) (QGetConsumerGroup c) in
  let esDone := queueDone (QGetQueue c) (QGetConsumerGroup c) in
  if negb (time.IsZero (AckDeadline c)) then
    [ addToAction {| EventSets := [esInProgID]; Score := 0 |};
      addToAction {| EventSets := [esInProgAck]; Score := NewTS (AckDeadline c) |} ]
  else
    [ addToAction {| EventSets := [esDone]; Score := 0 |} ].

Definition breakIfFound : QueryAction :=
  breakAction (mkCond true false None []).

Definition mostRecentSelect (now : time.Time) : QueryEventRangeSelect :=
  {| Min := NewTS now; MinExcl := true; Max := 0; MaxExcl := false;
     MinFromInput := false; Limit := 1; Reverse := true |}.

Definition oldestSelect (now : time.Time) : QueryEventRangeSelect :=
  let r := mostRecentSelect now in
  {| Min := Min r; MinExcl := MinExcl r; Max := Max r; MaxExcl := MaxExcl r;
     MinFromInput := MinFromInput r; Limit := Limit r; Reverse := false |}.

(** The selects of the three branches of [QGet]. *)
Definition redoBranch (c : QGetCommand) (now : time.Time) : list QueryAction :=
  let esRedo := queueRedo (QGetQueue c) (QGetConsumerGroup c) in
  [ selectAction (rangeSelector esRedo (oldestSelect now) false) noCond;
    removeFromAction [esRedo] ].

Definition nextBranch (c : QGetCommand) (now : time.Time) : list QueryAction :=
  let esAvail := queueAvailable (QGetQueue c) in
  let esInProgID := queueInProgressByID (QGetQueue c) (QGetConsumerGroup c) in
  let esDone := queueDone (QGetQueue c) (QGetConsumerGroup c) in
  [ selectAction (rangeSelector esInProgID (mostRecentSelect now) false) noCond;
    selectAction (rangeSelector esDone (mostRecentSelect now) true) noCond;
    selectAction
      (rangeSelector esAvail
         {| Min := 0; MinExcl := true; Max := 0; MaxExcl := false;
            MinFromInput := true; Limit := 1; Reverse := false |} false)
      noCond ].

Definition firstBranch (c : QGetCommand) : QueryAction :=
  let esAvail := queueAvailable (QGetQueue c) in
  let esInProgID := queueInProgressByID (QGetQueue c) (QGetConsumerGroup c) in
  let esDone := queueDone (QGetQueue c) (QGetConsumerGroup c) in
  selectAction (posSelector esAvail [0; 0])
    (mkCond false false None
       [ mkCond false false (Some esDone) [];
         mkCond false false (Some esInProgID) [] ]).

(** The plan of [QGet], in the order of the [append] calls. *)
Definition QGetActions (c : QGetCommand) (now : time.Time) : QueryActions :=
  let esAvail := queueAvailable (QGetQueue c) in
  let qq := [] in
  let qq := qq ++ redoBranch c now in
  let qq := qq ++ inProgOrDone c in
  let qq := qq ++ [breakIfFound] in
  let qq := qq ++ nextBranch c now in
  let qq := qq ++ inProgOrDone c in
  let qq := qq ++ [breakIfFound] in
  let qq := qq ++ [firstBranch c] in
  {| EventSetBase := Base esAvail; Actions := qq; Now := now |}.

(** [now] is the value of [time.Now()] of the call. *)
Definition QGet (c : QGetCommand) (now : time.Time) (st : Store)
  : Store * (Event * option error) :=
  let '(st1, (ee, err)) := Query (QGetActions c now) st in
  match err with
  | Some x => (st1, (zeroEvent, Some x))
  | None =>
    match ee with
    | [] => (st1, (zeroEvent, None))
    | e0 :: _ => GetEvent (EvID e0) st1
    end
  end.

(** The plan of [QAck]. *)
Definition QAckActions (c : QAckCommand) (now : time.Time) : QueryActions :=
  let esInProgID := queueInProgressByID (QAckQueue c) (QAckConsumerGroup c) in
  let esInProgAck := queueInProgressByAck (QAckQueue c) (QAckConsumerGroup c) in
  let esDone := queueDone (QAckQueue c) (QAckConsumerGroup c) in
  {| EventSetBase := Base esDone;
     Actions :=
       [ selectAction
           (scoreSelector esInProgAck
              {| ScoreEvent := QAckEvent c; ScoreMin := NewTS now |})
           noCond;
         breakAction (mkCond false true None []);
         removeFromAction [esInProgID; esInProgAck];
         addToAction {| EventSets := [esDone]; Score := 0 |} ];
     Now := now |}.

Definition QAck (c : QAckCommand) (now : time.Time) (st : Store)
  : Store * (bool * option error) :=
  let '(st1, (ee, err)) := Query (QAckActions c now) st in
  match err with
  | Some x => (st1, (false, Some x))
  | None => (st1, (bool_decide (0 < length ee)%nat, None))
  end.
End Peel.

(** ** The plan interpreter

    The interpreter of package core is not part of the source at hand; the
    definitions of this module follow the description of the plan steps. *)
Module interp.

(** Modelled from the spec: a collection maps event ids to scores.  The
    store holds all collections in one map, from a collection identity and
    an event id to the score of that event in that collection; a collection
    without entries is empty and needs no entry of its own. *)
Abbreviation Sets := (gmap (EventSet * ID) TS).

(** An event drawn from a collection carries its id only. *)
Definition eventOfID (id : ID) : Event := mkEvent id "".

(** The members of collection [es], with their scores. *)
Definition entries (s : Sets) (es : EventSet) : list (ID * TS) :=
  omap (fun en : (EventSet * ID) * TS =>
          if decide (en.1.1 = es) then Some (en.1.2, en.2) else None)
       (map_to_list s).

(** Modelled from the spec: collections are kept in score order; entries
    [(id, score)] of equal score are ordered by id. *)
Definition entry_leb (a b : ID * TS) : bool :=
  (a.2 <? b.2) || ((a.2 =? b.2) && (a.1 <=? b.1)).

Definition entry_le (a b : ID * TS) : Prop := entry_leb a b = true.

#[export] Instance entry_le_dec a b : Decision (entry_le a b) :=
  bool_eq_dec (entry_leb a b) true.

Definition ordered (s : Sets) (es : EventSet) : list (ID * TS) :=
  merge_sort entry_le (entries s es).

(** Modelled from the spec: the bounds of a score range, each optionally
    exclusive, [0] meaning unbounded on that side. *)
Definition lowerOK (lo : TS) (excl : bool) (sc : TS) : bool :=
  if excl then lo <? sc else lo <=? sc.

Definition upperOK (hi : TS) (excl : bool) (sc : TS) : bool :=
  if excl then sc <? hi else sc <=? hi.

Definition inRange (lo : option TS) (r : QueryEventRangeSelect) (en : ID * TS) : bool :=
  match lo with None => true | Some l => lowerOK l (MinExcl r) en.2 end
  && ((Max r =? 0) || upperOK (Max r) (MaxExcl r) en.2).

(** Modelled from the spec: the minimum score currently in the accumulator,
    an event of the accumulator counting with its natural score, its id. *)
Definition minScore (acc : list Event) : option TS :=
  match acc with
  | [] => None
  | e :: rest => Some (foldr Z.min (EvID e) (EvID <$> rest))
  end.

(** [Limit] caps the results; the zero value leaves them uncapped. *)
Definition limited {A} (n : Z) (l : list A) : list A :=
  if n =? 0 then l else take (Z.to_nat n) l.

Definition pickRange (lo : option TS) (r : QueryEventRangeSelect) (l : list (ID * TS))
  : list Event :=
  let l := List.filter (inRange lo r) l in
  let l := if Reverse r then reverse l else l in
  (fun en => eventOfID en.1) <$> limited (Limit r) l.

(** Modelled from the spec: a select by score range over the collection [l]
    in score order; with [MinFromInput] the lower bound is the minimum score
    of the accumulator, and there is nothing to select after an empty
    accumulator. *)
Definition rangeSelect (r : QueryEventRangeSelect) (acc : list Event) (l : list (ID * TS))
  : list Event :=
  if MinFromInput r then
    match minScore acc with
    | None => []
    | Some lo => pickRange (Some lo) r l
    end
  else pickRange (if Min r =? 0 then None else Some (Min r)) r l.

(** Modelled from the spec: the exact event lookup, which finds the event
    when it is present with a score of at least [ScoreMin]. *)
Definition scoreSelect (q : QueryEventScoreSelect) (score : option TS) : list Event :=
  match score with
  | Some sc => if ScoreMin q <=? sc then [ScoreEvent q] else []
  | None => []
  end.

(** Modelled from the spec: a select by rank, positions [a] to [b], both
    counted from the lowest score and both included. *)
Definition posSelect (pos : list Z) (l : list (ID * TS)) : list Event :=
  match pos with
  | [a; b] =>
    (fun en => eventOfID en.1) <$> take (Z.to_nat (b - a + 1)) (drop (Z.to_nat a) l)
  | _ => []
  end.

Definition hasID (acc : list Event) (e : Event) : bool :=
  existsb (fun a => EvID a =? EvID e) acc.

(** Modelled from the spec: a select replaces the accumulator or, marked
    [Union], extends it. *)
Definition runSelector (qs : QuerySelector) (s : Sets) (acc : list Event) : list Event :=
  let es := SelEventSet qs in
  let found :=
    match SelRange qs, SelScore qs, PosRangeSelect qs with
    | Some r, _, _ => rangeSelect r acc (ordered s es)
    | None, Some q, _ => scoreSelect q (s !! (es, EvID (ScoreEvent q)))
    | None, None, _ :: _ => posSelect (PosRangeSelect qs) (ordered s es)
    | None, None, [] => Events qs
    end in
  if Union qs then acc ++ List.filter (fun e => negb (hasID acc e)) found else found.

(** Modelled from the spec: [AddTo] copies the accumulator into the named
    collections, with the natural score unless [Score] overrides it. *)
Definition addScore (score : TS) (e : Event) : TS :=
  if score =? 0 then EvID e else score.

Definition addTo (ess : list EventSet) (score : TS) (acc : list Event) (s : Sets) : Sets :=
  foldl (fun s es => foldl (fun s e => <[(es, EvID e) := addScore score e]> s) s acc)
        s ess.

(** Modelled from the spec: [RemoveFrom] removes the accumulator from the
    named collections. *)
Definition removeFrom (ess : list EventSet) (acc : list Event) (s : Sets) : Sets :=
  foldl (fun s es => foldl (fun s e => delete (es, EvID e) s) s acc) s ess.

(** Modelled from the spec: the predicates of a conditional, which all
    have to hold. *)
Fixpoint evalCond (s : Sets) (acc : list Event) (c : QueryConditional) : bool :=
  match c with
  | mkCond ifInput ifNoInput ifEmpty and =>
    implb ifInput (negb (bool_decide (acc = [])))
    && implb ifNoInput (bool_decide (acc = []))
    && match ifEmpty with
       | Some es => bool_decide (entries s es = [])
       | None => true
       end
    && forallb (evalCond s acc) and
  end.

Definition applyAction (a : QueryAction) (s : Sets) (acc : list Event)
  : Sets * list Event :=
  let acc1 :=
    match ActSelector a with
    | Some qs => runSelector qs s acc
    | None => acc
    end in
  let s1 :=
    match ActAddTo a with
    | Some t => addTo (EventSets t) (Score t) acc1 s
    | None => s
    end in
  (removeFrom (RemoveFrom a) acc1 s1, acc1).

(** Modelled from the spec: the steps run left to right over the
    accumulator; a step whose conditional fails is skipped, a [Break]
    whose conditional holds ends the plan and keeps what was done. *)
Fixpoint exec (qq : list QueryAction) (s : Sets) (acc : list Event)
  : Sets * list Event :=
  match qq with
  | [] => (s, acc)
  | a :: rest =>
    if evalCond s acc (Cond a) then
      if Break a then (s, acc)
      else let '(s1, acc1) := applyAction a s acc in exec rest s1 acc1
    else exec rest s acc
  end.

Definition runPlan (qa : QueryActions) (s : Sets) : Sets * list Event :=
  exec (Actions qa) s [].

(** Vocabulary for the statements below: [x] is a member of [es] with a
    score later than [lo]; it is the oldest, or the newest, such member. *)
Definition above (s : Sets) (es : EventSet) (lo : TS) (x : ID) (sc : TS) : Prop :=
  s !! (es, x) = Some sc ∧ lo < sc.

Definition oldestAbove (s : Sets) (es : EventSet) (lo : TS) (x : ID) : Prop :=
  ∃ sc, above s es lo x sc
        ∧ ∀ y sc', above s es lo y sc' → entry_le (x, sc) (y, sc').

Definition newestAbove (s : Sets) (es : EventSet) (lo : TS) (x : ID) : Prop :=
  ∃ sc, above s es lo x sc
        ∧ ∀ y sc', above s es lo y sc' → entry_le (y, sc') (x, sc).

(** The two in-progress collections of a queue and group hold the same
    events. *)
Definition inProgAligned (s : Sets) (q g : string) : Prop :=
  ∀ x, is_Some (s !! (queueInProgressByID q g, x))
       ↔ is_Some (s !! (queueInProgressByAck q g, x)).

End interp.

(** ** A core whose [Query] is the interpreter

    The store pairs the collections with the state [P] of the other
    services.  Id generation and payload storage are arbitrary functions on
    [P]: they cannot touch a collection, and a plan cannot touch [P].  The
    instance describes a store that is reachable and commits the plan. *)
Section ModelCore.
Context {P : Type}.
Variable newTS : time.Time -> TS.
Variable newEvent : time.Time -> string -> P -> P * (Event * option error).
Variable setEvent : Event -> time.Duration -> P -> P * option error.
Variable getEvent : ID -> P -> P * (Event * option error).

Definition onServices {A} (f : P -> P * A) (st : interp.Sets * P)
  : (interp.Sets * P) * A :=
  let '(p1, r) := f st.2 in ((st.1, p1), r).

Definition modelQuery (qa : QueryActions) (st : interp.Sets * P)
  : (interp.Sets * P) * (list Event * option error) :=
  let '(s1, acc) := interp.runPlan qa st.1 in ((s1, st.2), (acc, None)).

Definition modelCore : Core (interp.Sets * P) :=
  {| NewTS := newTS;
     NewEvent := fun t contents => onServices (newEvent t contents);
     SetEvent := fun e d => onServices (setEvent e d);
     Query := modelQuery;
     GetEvent := fun id => onServices (getEvent id) |}.
End ModelCore.

(** ** Concrete services for the examples

    Payloads are a list of stored events; an id is the expiry itself. *)
Module example.
Definition newTS (t : time.Time) : TS := t.
Definition newEvent (t : time.Time) (contents : string) (p : list Event)
  : list Event * (Event * option error) :=
  (p, (mkEvent t contents, None)).
Definition setEvent (e : Event) (_ : time.Duration) (p : list Event)
  : list Event * option error := (e :: p, None).
Definition getEvent (id : ID) (p : list Event) : list Event * (Event * option error) :=
  match List.find (fun e => EvID e =? id) p with
  | Some e => (p, (e, None))
  | None => (p, (zeroEvent, Some "not found"))
  end.
Definition core : Core (interp.Sets * list Event) :=
  modelCore newTS newEvent setEvent getEvent.

(** Services that are down: every call fails. *)
Definition downEvent (t : time.Time) (contents : string) (p : list Event)
  : list Event * (Event * option error) := (p, (zeroEvent, Some "no id")).
Definition downSet (e : Event) (_ : time.Duration) (p : list Event)
  : list Event * option error := (p, Some "no storage").
Definition noID : Core (interp.Sets * list Event) :=
  modelCore newTS downEvent setEvent getEvent.
Definition noStorage : Core (interp.Sets * list Event) :=
  modelCore newTS newEvent downSet getEvent.

(** A store that is down: [Query] fails. *)
Definition noStore : Core (interp.Sets * list Event) :=
  {| NewTS := newTS;
     NewEvent := fun t contents => onServices (newEvent t contents);
     SetEvent := fun e d => onServices (setEvent e d);
     Query := fun _ st => (st, ([], Some "no store"));
     GetEvent := fun id => onServices (getEvent id) |}.

(** A store with the given collections of queue [q], group [g]. *)
Definition sets (avail inProgID inProgAck redo done : list (ID * TS)) : interp.Sets :=
  let named (es : EventSet) (l : list (ID * TS)) :=
    (fun en : ID * TS => ((es, en.1), en.2)) <$> l in
  list_to_map
    (named (queueAvailable "q") avail
     ++ named (queueInProgressByID "q" "g") inProgID
     ++ named (queueInProgressByAck "q" "g") inProgAck
     ++ named (queueRedo "q" "g") redo
     ++ named (queueDone "q" "g") done).

(** What a test would look at: the five collections, in score order. *)
Definition view (s : interp.Sets) : list (list (ID * TS)) :=
  interp.ordered s <$>
    [ queueAvailable "q"; queueInProgressByID "q" "g";
      queueInProgressByAck "q" "g"; queueRedo "q" "g"; queueDone "q" "g" ].

Definition get (deadline : time.Time) : QGetCommand :=
  mkQGet (mkClient "c1") "q" "g" deadline.
Definition ack (id : ID) : QAckCommand :=
  mkQAck (mkClient "c1") "q" "g" (mkEvent id "").
End example.

(** * Properties *)

(** ** The commands over any core *)
Section PeelFacts.
Context {Store : Type} `{Core Store}.

(** C5: when the plan of [QGet] runs without error and ends with an empty
    accumulator, [QGet] returns the zero event and a nil error. *)
Theorem QGet_empty_is_no_error (c : QGetCommand) (now : time.Time)
    (st st1 : Store) (ee : list Event) :
  Query (QGetActions c now) st = (st1, (ee, None)) →
  length ee = 0%nat →
  QGet c now st = (st1, (zeroEvent, None)).
Proof.
  intros Hq Hlen. unfold QGet. rewrite Hq.
  destruct ee as [|e0 ee']; [reflexivity | discriminate Hlen].
Qed.

(** C9: two commands that differ in the client only build the same plan and
    give the same result, for each of [QAdd], [QGet] and [QAck]. *)
Theorem client_token_is_inert (cl1 cl2 : Client) :
  (∀ q expire contents e st,
      QAddActions (mkQAdd cl1 q expire contents) e
      = QAddActions (mkQAdd cl2 q expire contents) e
      ∧ QAdd (mkQAdd cl1 q expire contents) st
        = QAdd (mkQAdd cl2 q expire contents) st)
  ∧ (∀ q g deadline now st,
      QGetActions (mkQGet cl1 q g deadline) now
      = QGetActions (mkQGet cl2 q g deadline) now
      ∧ QGet (mkQGet cl1 q g deadline) now st
        = QGet (mkQGet cl2 q g deadline) now st)
  ∧ (∀ q g ev now st,
      QAckActions (mkQAck cl1 q g ev) now = QAckActions (mkQAck cl2 q g ev) now
      ∧ QAck (mkQAck cl1 q g ev) now st = QAck (mkQAck cl2 q g ev) now st).
Proof. repeat split. Qed.

Lemma QAdd_no_id (c : QAddCommand) (st st1 : Store) (e : Event) (x : error) :
  NewEvent (Expire c) (QAddContents c) st = (st1, (e, Some x)) →
  QAdd c st = (st1, (0, Some x)).
Proof. intros Hn. unfold QAdd. by rewrite Hn. Qed.

Lemma QAdd_no_storage (c : QAddCommand) (st st1 st2 : Store) (e : Event) (x : error) :
  NewEvent (Expire c) (QAddContents c) st = (st1, (e, None)) →
  SetEvent e (30 * time.Second) st1 = (st2, Some x) →
  QAdd c st = (st2, (0, Some x)).
Proof. intros Hn Hs. unfold QAdd. by rewrite Hn, Hs. Qed.

Lemma QAdd_done (c : QAddCommand) (st st1 st2 st3 : Store) (e : Event)
    (ee : list Event) :
  NewEvent (Expire c) (QAddContents c) st = (st1, (e, None)) →
  SetEvent e (30 * time.Second) st1 = (st2, None) →
  Query (QAddActions c e) st2 = (st3, (ee, None)) →
  QAdd c st = (st3, (EvID e, None)).
Proof. intros Hn Hs Hq. unfold QAdd. by rewrite Hn, Hs, Hq. Qed.
End PeelFacts.

(** ** The order of a collection *)
Import interp.

#[global] Instance entry_le_refl : Reflexive entry_le.
Proof. intros [i a]. unfold entry_le, entry_leb; simpl. lia. Qed.

#[global] Instance entry_le_trans : Transitive entry_le.
Proof.
  intros [i a] [j b] [k c]. unfold entry_le, entry_leb; simpl. lia.
Qed.

#[global] Instance entry_le_total : Total entry_le.
Proof. intros [i a] [j b]. unfold entry_le, entry_leb; simpl. lia. Qed.

Lemma entry_le_antisym (a b : ID * TS) : entry_le a b → entry_le b a → a = b.
Proof.
  destruct a as [i a], b as [j b]. unfold entry_le, entry_leb; simpl.
  intros H1 H2. f_equal; lia.
Qed.

Lemma elem_of_entries (s : Sets) (es : EventSet) (en : ID * TS) :
  en ∈ entries s es ↔ s !! (es, en.1) = Some en.2.
Proof.
  unfold entries. rewrite list_elem_of_omap. split.
  - intros ([[k i] sc] & Hin & Heq). simpl in Heq.
    destruct (decide (k = es)) as [->|]; [|discriminate].
    injection Heq as <-. simpl. by apply elem_of_map_to_list.
  - intros Hl. exists ((es, en.1), en.2). split.
    + by apply elem_of_map_to_list.
    + simpl. rewrite decide_True by done. by destruct en.
Qed.

Lemma elem_of_ordered (s : Sets) (es : EventSet) (en : ID * TS) :
  en ∈ ordered s es ↔ s !! (es, en.1) = Some en.2.
Proof.
  unfold ordered. rewrite merge_sort_Permutation. apply elem_of_entries.
Qed.

Lemma ordered_sorted (s : Sets) (es : EventSet) :
  StronglySorted entry_le (ordered s es).
Proof. apply StronglySorted_merge_sort; apply _. Qed.

Lemma entries_nil (s : Sets) (es : EventSet) :
  entries s es = [] ↔ ∀ x, s !! (es, x) = None.
Proof.
  split.
  - intros Hnil x. destruct (s !! (es, x)) as [sc|] eqn:E; [|done].
    apply (elem_of_entries s es (x, sc)) in E. rewrite Hnil in E.
    by apply elem_of_nil in E.
  - intros Hnone. destruct (entries s es) as [|en l] eqn:E; [done|].
    assert (Hin : en ∈ entries s es) by (rewrite E; left).
    apply elem_of_entries in Hin. by rewrite Hnone in Hin.
Qed.

Lemma ordered_nil (s : Sets) (es : EventSet) :
  ordered s es = [] ↔ entries s es = [].
Proof.
  unfold ordered. split; intros Hnil.
  - apply Permutation_nil_r. rewrite <- Hnil. by rewrite merge_sort_Permutation.
  - by rewrite Hnil.
Qed.

Lemma filter_sorted {A} (R : relation A) (f : A → bool) (l : list A) :
  StronglySorted R l → StronglySorted R (List.filter f l).
Proof.
  induction 1 as [|x l Hs IH Hall]; simpl; [constructor|].
  destruct (f x); [|done]. constructor; [done|].
  rewrite Forall_forall in *. intros y Hy.
  apply list_elem_of_In, filter_In in Hy. apply Hall, list_elem_of_In, Hy.
Qed.

(** ** Range selects that are limited to one event *)
Section Select.
Variables (s : Sets) (es : EventSet) (lo : TS) (r : QueryEventRangeSelect).
Hypothesis HminExcl : MinExcl r = true.
Hypothesis Hmax : Max r = 0.
Hypothesis Hlimit : Limit r = 1.

Lemma inRange_above (en : ID * TS) : inRange (Some lo) r en = true ↔ lo < en.2.
Proof. unfold inRange, lowerOK. rewrite HminExcl, Hmax. simpl. lia. Qed.

Lemma filter_above (x : ID) (sc : TS) :
  (x, sc) ∈ List.filter (inRange (Some lo) r) (ordered s es) ↔ above s es lo x sc.
Proof.
  rewrite list_elem_of_In, filter_In, <- list_elem_of_In.
  rewrite elem_of_ordered, inRange_above. done.
Qed.

Lemma pickRange_oldest :
  Reverse r = false →
  (pickRange (Some lo) r (ordered s es) = [] ∧ ∀ x sc, ¬ above s es lo x sc)
  ∨ (∃ x, pickRange (Some lo) r (ordered s es) = [eventOfID x]
          ∧ oldestAbove s es lo x).
Proof.
  intros Hrev. unfold pickRange. rewrite Hrev, Hlimit.
  pose proof (filter_sorted entry_le (inRange (Some lo) r) _ (ordered_sorted s es))
    as Hsort.
  pose proof filter_above as Hin.
  destruct (List.filter (inRange (Some lo) r) (ordered s es)) as [|[h hs] t].
  - left. split; [done|]. intros x sc Ha. apply Hin in Ha. by apply elem_of_nil in Ha.
  - right. exists h. split; [done|]. exists hs. split.
    + apply Hin. left.
    + intros y sc' Ha. apply Hin in Ha. apply StronglySorted_cons in Hsort as [Hall _].
      apply elem_of_cons in Ha as [->|Ht]; [reflexivity|].
      by apply (proj1 (Forall_forall _ _) Hall).
Qed.

Lemma pickRange_newest :
  Reverse r = true →
  (pickRange (Some lo) r (ordered s es) = [] ∧ ∀ x sc, ¬ above s es lo x sc)
  ∨ (∃ x, pickRange (Some lo) r (ordered s es) = [eventOfID x]
          ∧ newestAbove s es lo x).
Proof.
  intros Hrev. unfold pickRange. rewrite Hrev, Hlimit.
  pose proof (filter_sorted entry_le (inRange (Some lo) r) _ (ordered_sorted s es))
    as Hsort.
  pose proof filter_above as Hin.
  destruct (List.filter (inRange (Some lo) r) (ordered s es)) as [|en l] using rev_ind.
  - left. split; [done|]. intros x sc Ha. apply Hin in Ha. by apply elem_of_nil in Ha.
  - right. destruct en as [h hs]. rewrite reverse_app. exists h. split; [done|].
    exists hs. split.
    + apply Hin, elem_of_app. right. left.
    + intros y sc' Ha. apply Hin in Ha. apply elem_of_app in Ha as [Hl|Hh].
      * eapply StronglySorted_app_1_elem_of; [exact Hsort|exact Hl|left].
      * apply list_elem_of_singleton in Hh as ->. reflexivity.
Qed.
End Select.

Lemma oldestAbove_unique (s : Sets) (es : EventSet) (lo : TS) (x y : ID) :
  oldestAbove s es lo x → oldestAbove s es lo y → x = y.
Proof.
  intros (sx & Hx & Hminx) (sy & Hy & Hminy).
  pose proof (entry_le_antisym _ _ (Hminx _ _ Hy) (Hminy _ _ Hx)). congruence.
Qed.

Lemma newestAbove_unique (s : Sets) (es : EventSet) (lo : TS) (x y : ID) :
  newestAbove s es lo x → newestAbove s es lo y → x = y.
Proof.
  intros (sx & Hx & Hmaxx) (sy & Hy & Hmaxy).
  pose proof (entry_le_antisym _ _ (Hmaxx _ _ Hy) (Hmaxy _ _ Hx)). congruence.
Qed.

(** The vocabulary, decided by running a select. *)
Lemma oldestAbove_by_select (s : Sets) (es : EventSet) (lo : TS) (x : ID) :
  pickRange (Some lo) (mkRangeSelect 0 true 0 false false 1 false) (ordered s es)
  = [eventOfID x] →
  oldestAbove s es lo x.
Proof.
  intros Hsel.
  destruct (pickRange_oldest s es lo (mkRangeSelect 0 true 0 false false 1 false))
    as [[Hnil _]|(y & Hy & Hold)]; try reflexivity; [congruence|].
  rewrite Hsel in Hy. by injection Hy as ->.
Qed.

Lemma newestAbove_by_select (s : Sets) (es : EventSet) (lo : TS) (x : ID) :
  pickRange (Some lo) (mkRangeSelect 0 true 0 false false 1 true) (ordered s es)
  = [eventOfID x] →
  newestAbove s es lo x.
Proof.
  intros Hsel.
  destruct (pickRange_newest s es lo (mkRangeSelect 0 true 0 false false 1 true))
    as [[Hnil _]|(y & Hy & Hnew)]; try reflexivity; [congruence|].
  rewrite Hsel in Hy. by injection Hy as ->.
Qed.

Lemma none_above_by_select (s : Sets) (es : EventSet) (lo : TS) :
  pickRange (Some lo) (mkRangeSelect 0 true 0 false false 1 false) (ordered s es) = [] →
  ∀ x sc, ¬ above s es lo x sc.
Proof.
  intros Hsel.
  destruct (pickRange_oldest s es lo (mkRangeSelect 0 true 0 false false 1 false))
    as [[_ Hnone]|(y & Hy & _)]; try reflexivity; [done|congruence].
Qed.

(** ** Single steps of the interpreter *)
Section Steps.
Variables (rest : list QueryAction) (s : Sets) (acc : list Event).

Lemma exec_select (qs : QuerySelector) :
  exec (selectAction qs noCond :: rest) s acc = exec rest s (runSelector qs s acc).
Proof. reflexivity. Qed.

Lemma exec_addTo (t : QueryAddTo) :
  exec (addToAction t :: rest) s acc
  = exec rest (addTo (EventSets t) (Score t) acc s) acc.
Proof. reflexivity. Qed.

Lemma exec_removeFrom (ess : list EventSet) :
  exec (removeFromAction ess :: rest) s acc = exec rest (removeFrom ess acc s) acc.
Proof. reflexivity. Qed.

Lemma exec_breakIfInput :
  exec (breakAction (mkCond true false None []) :: rest) s acc
  = match acc with [] => exec rest s acc | _ :: _ => (s, acc) end.
Proof. by destruct acc. Qed.

Lemma exec_breakIfNoInput :
  exec (breakAction (mkCond false true None []) :: rest) s acc
  = match acc with [] => (s, acc) | _ :: _ => exec rest s acc end.
Proof. by destruct acc. Qed.

Lemma exec_selectIfEmpty (qs : QuerySelector) (es1 es2 : EventSet) :
  exec (selectAction qs
          (mkCond false false None
             [mkCond false false (Some es1) []; mkCond false false (Some es2) []])
        :: rest) s acc
  = if bool_decide (entries s es1 = []) && bool_decide (entries s es2 = [])
    then exec rest s (runSelector qs s acc)
    else exec rest s acc.
Proof.
  cbn [exec Cond selectAction evalCond forallb implb andb Break].
  by destruct (bool_decide (entries s es1 = [])),
              (bool_decide (entries s es2 = [])).
Qed.
End Steps.

Lemma addTo_nil (ess : list EventSet) (score : TS) (s : Sets) :
  addTo ess score [] s = s.
Proof. induction ess as [|es ess IH]; [done|]. simpl. apply IH. Qed.

Lemma removeFrom_nil (ess : list EventSet) (s : Sets) : removeFrom ess [] s = s.
Proof. induction ess as [|es ess IH]; [done|]. simpl. apply IH. Qed.

Lemma rangeSelect_static (r : QueryEventRangeSelect) (acc : list Event)
    (l : list (ID * TS)) :
  MinFromInput r = false → Min r ≠ 0 →
  rangeSelect r acc l = pickRange (Some (Min r)) r l.
Proof.
  intros Hfrom Hmin. unfold rangeSelect. rewrite Hfrom.
  by rewrite (proj2 (Z.eqb_neq _ _) Hmin).
Qed.

Lemma limited_subseteq {A} (n : Z) (l : list A) : limited n l ⊆ l.
Proof. unfold limited. destruct (n =? 0); [done | apply subseteq_take]. Qed.

Lemma elem_of_pickRange (lo : option TS) (r : QueryEventRangeSelect)
    (l : list (ID * TS)) (e : Event) :
  e ∈ pickRange lo r l → ∃ en, en ∈ l ∧ inRange lo r en = true ∧ e = eventOfID en.1.
Proof.
  unfold pickRange. rewrite list_elem_of_fmap. intros (en & -> & Hin).
  apply limited_subseteq in Hin.
  assert (Hf : en ∈ List.filter (inRange lo r) l).
  { destruct (Reverse r); [by apply elem_of_reverse|done]. }
  apply list_elem_of_In, filter_In in Hf as [Hl Hf].
  exists en. split_and!; [by apply list_elem_of_In|done|done].
Qed.

(** ** The plans over the interpreter *)
Section Model.
Context {P : Type}.
Variable newTS : time.Time -> TS.
Variable newEvent : time.Time -> string -> P -> P * (Event * option error).
Variable setEvent : Event -> time.Duration -> P -> P * option error.
Variable getEvent : ID -> P -> P * (Event * option error).
Let mc : Core (Sets * P) := modelCore newTS newEvent setEvent getEvent.
#[local] Existing Instance mc.

Lemma runSelector_range (es : EventSet) (r : QueryEventRangeSelect) (s : Sets)
    (acc : list Event) :
  runSelector (rangeSelector es r false) s acc = rangeSelect r acc (ordered s es).
Proof. reflexivity. Qed.

Lemma runSelector_union (es : EventSet) (r : QueryEventRangeSelect) (s : Sets)
    (acc : list Event) :
  runSelector (rangeSelector es r true) s acc
  = acc ++ List.filter (fun e => negb (hasID acc e)) (rangeSelect r acc (ordered s es)).
Proof. reflexivity. Qed.

Lemma runSelector_pos (es : EventSet) (a b : Z) (s : Sets) (acc : list Event) :
  runSelector (posSelector es [a; b]) s acc = posSelect [a; b] (ordered s es).
Proof. reflexivity. Qed.

(** The sets after the commit steps [inProgOrDone] ran over one event. *)
Lemma exec_inProgOrDone (c : QGetCommand) (rest : list QueryAction) (s : Sets)
    (acc : list Event) :
  exec (inProgOrDone c ++ rest) s acc
  = exec rest (exec (inProgOrDone c) s acc).1 acc.
Proof.
  unfold inProgOrDone. destruct (negb _); cbn [app]; by rewrite !exec_addTo.
Qed.

Lemma inProgOrDone_one (c : QGetCommand) (s : Sets) (x : ID) :
  let q := QGetQueue c in
  let g := QGetConsumerGroup c in
  (exec (inProgOrDone c) s [eventOfID x]).1
  = if time.IsZero (AckDeadline c)
    then <[(queueDone q g, x) := x]> s
    else <[(queueInProgressByAck q g, x) := addScore (newTS (AckDeadline c)) (eventOfID x)]>
           (<[(queueInProgressByID q g, x) := x]> s).
Proof.
  intros q g. unfold inProgOrDone. by destruct (time.IsZero _).
Qed.

Lemma inProgOrDone_nil (c : QGetCommand) (s : Sets) :
  (exec (inProgOrDone c) s []).1 = s.
Proof.
  unfold inProgOrDone. destruct (negb _); by rewrite !exec_addTo, !addTo_nil.
Qed.

(** The run of the plan of [QGet], branch by branch. *)
Lemma runPlan_QGet (c : QGetCommand) (now : time.Time) (s : Sets) :
  let q := QGetQueue c in
  let g := QGetConsumerGroup c in
  let r1 := rangeSelect (oldestSelect now) [] (ordered s (queueRedo q g)) in
  let a := rangeSelect (mostRecentSelect now) [] (ordered s (queueInProgressByID q g)) in
  let b := a ++ List.filter (fun e => negb (hasID a e))
                  (rangeSelect (mostRecentSelect now) a (ordered s (queueDone q g))) in
  let r2 := rangeSelect (mkRangeSelect 0 true 0 false true 1 false) b
              (ordered s (queueAvailable q)) in
  runPlan (QGetActions c now) s =
  match r1 with
  | _ :: _ => ((exec (inProgOrDone c) (removeFrom [queueRedo q g] r1 s) r1).1, r1)
  | [] =>
    match r2 with
    | _ :: _ => ((exec (inProgOrDone c) s r2).1, r2)
    | [] =>
      (s, if bool_decide (entries s (queueDone q g) = [])
             && bool_decide (entries s (queueInProgressByID q g) = [])
          then posSelect [0; 0] (ordered s (queueAvailable q))
          else [])
    end
  end.
Proof.
  intros q g r1 a b r2.
  unfold runPlan, QGetActions, redoBranch, nextBranch, firstBranch.
  fold q g. cbn [Actions app].
  rewrite exec_select, exec_removeFrom.
  rewrite runSelector_range.
  fold r1. rewrite <- !app_assoc, exec_inProgOrDone. cbn [app].
  rewrite exec_breakIfInput.
  destruct r1 as [|e1 t1]; [|done].
  rewrite removeFrom_nil, inProgOrDone_nil, !exec_select.
  rewrite !runSelector_range, runSelector_union.
  fold a. fold b. fold r2.
  rewrite exec_inProgOrDone. cbn [app]. rewrite exec_breakIfInput.
  destruct r2 as [|e2 t2]; [|done].
  rewrite inProgOrDone_nil, exec_selectIfEmpty.
  rewrite runSelector_pos. by destruct (bool_decide _ && bool_decide _).
Qed.

Lemma oldestSelect_pick (now : time.Time) (acc : list Event) (l : list (ID * TS)) :
  newTS now ≠ 0 →
  rangeSelect (oldestSelect now) acc l
  = pickRange (Some (newTS now)) (oldestSelect now) l.
Proof. intros Hnow. by apply rangeSelect_static. Qed.

Lemma mostRecentSelect_pick (now : time.Time) (acc : list Event) (l : list (ID * TS)) :
  newTS now ≠ 0 →
  rangeSelect (mostRecentSelect now) acc l
  = pickRange (Some (newTS now)) (mostRecentSelect now) l.
Proof. intros Hnow. by apply rangeSelect_static. Qed.

Lemma modelQuery_QGet (c : QGetCommand) (now : time.Time) (s s1 : Sets) (p : P)
    (x : ID) (t : list Event) :
  runPlan (QGetActions c now) s = (s1, eventOfID x :: t) →
  QGet c now (s, p) = ((s1, (getEvent x p).1), (getEvent x p).2).
Proof.
  intros Hrun. unfold QGet. cbn [Query mc modelCore]. unfold modelQuery.
  cbn [fst snd]. rewrite Hrun. cbn [EvID eventOfID].
  change (GetEvent x (s1, p)) with (onServices (getEvent x) (s1, p)).
  unfold onServices. cbn [fst snd]. by destruct (getEvent x p).
Qed.

(** C2, as the code has it: when redo holds a member whose score is later
    than now (and now is not the zero timestamp), the plan of [QGet] selects
    the oldest such member, whatever available holds, removes it from redo
    and commits it; [QGet] returns what [GetEvent] gives for its id. *)
Theorem QGet_takes_oldest_redo (c : QGetCommand) (now : time.Time) (s : Sets) (p : P) :
  let q := QGetQueue c in
  let g := QGetConsumerGroup c in
  newTS now ≠ 0 →
  (∃ x sc, above s (queueRedo q g) (newTS now) x sc) →
  ∃ x, oldestAbove s (queueRedo q g) (newTS now) x
    ∧ let s1 :=
        if time.IsZero (AckDeadline c)
        then <[(queueDone q g, x) := x]> (delete (queueRedo q g, x) s)
        else <[(queueInProgressByAck q g, x) :=
                 if newTS (AckDeadline c) =? 0 then x else newTS (AckDeadline c)]>
               (<[(queueInProgressByID q g, x) := x]> (delete (queueRedo q g, x) s)) in
      runPlan (QGetActions c now) s = (s1, [eventOfID x])
      ∧ s1 !! (queueRedo q g, x) = None
      ∧ QGet c now (s, p) = ((s1, (getEvent x p).1), (getEvent x p).2).
Proof.
  intros q g Hnow (x0 & sc0 & Hsome).
  destruct (pickRange_oldest s (queueRedo q g) (newTS now) (oldestSelect now))
    as [[_ Hnone]|(x & Hpick & Hold)]; try reflexivity.
  { by destruct (Hnone _ _ Hsome). }
  exists x. split; [done|]. intros s1.
  assert (Hrun : runPlan (QGetActions c now) s = (s1, [eventOfID x])).
  { rewrite runPlan_QGet. fold q g. rewrite (oldestSelect_pick now) by done.
    rewrite Hpick. by rewrite inProgOrDone_one. }
  split_and!; [done| |by apply (modelQuery_QGet _ _ _ _ _ _ [])].
  unfold s1. destruct (time.IsZero _).
  - rewrite lookup_insert_ne by done. apply lookup_delete_eq.
  - rewrite !lookup_insert_ne by done. apply lookup_delete_eq.
Qed.

Lemma runPlan_QAck (c : QAckCommand) (now : time.Time) (s : Sets) :
  let q := QAckQueue c in
  let g := QAckConsumerGroup c in
  let id := EvID (QAckEvent c) in
  runPlan (QAckActions c now) s =
  match s !! (queueInProgressByAck q g, id) with
  | Some sc =>
    if newTS now <=? sc
    then (<[(queueDone q g, id) := id]>
            (delete (queueInProgressByAck q g, id)
               (delete (queueInProgressByID q g, id) s)), [QAckEvent c])
    else (s, [])
  | None => (s, [])
  end.
Proof.
  intros q g id. unfold runPlan, QAckActions. fold q g. cbn [Actions].
  rewrite exec_select.
  change (runSelector _ s [])
    with (scoreSelect {| ScoreEvent := QAckEvent c; ScoreMin := newTS now |}
            (s !! (queueInProgressByAck q g, id))).
  unfold scoreSelect. cbn [ScoreMin ScoreEvent].
  destruct (s !! (queueInProgressByAck q g, id)) as [sc|]; [|done].
  by destruct (newTS now <=? sc).
Qed.

(** C6: on a store that runs the plan, [QAck] returns true exactly when the
    event is in in-progress-by-ack-deadline with a score of at least now; it
    is then removed from both in-progress collections and added to done with
    its natural score, and otherwise [QAck] returns false. *)
Theorem QAck_true_iff_in_time (c : QAckCommand) (now : time.Time) (s : Sets) (p : P) :
  let q := QAckQueue c in
  let g := QAckConsumerGroup c in
  let id := EvID (QAckEvent c) in
  let found := ∃ sc, s !! (queueInProgressByAck q g, id) = Some sc ∧ newTS now ≤ sc in
  ((QAck c now (s, p)).2 = (true, None) ↔ found)
  ∧ ((QAck c now (s, p)).2 = (false, None) ↔ ¬ found)
  ∧ (found →
     (QAck c now (s, p)).1
     = (<[(queueDone q g, id) := id]>
          (delete (queueInProgressByAck q g, id)
             (delete (queueInProgressByID q g, id) s)), p)).
Proof.
  intros q g id found. unfold QAck. cbn [Query mc modelCore]. unfold modelQuery.
  cbn [fst snd]. rewrite runPlan_QAck. fold q g id. unfold found.
  destruct (s !! (queueInProgressByAck q g, id)) as [sc|] eqn:Hl.
  - destruct (newTS now <=? sc) eqn:Hle; cbn.
    + apply Z.leb_le in Hle. split_and!; [|split; [done|]|done].
      * split; [eauto|done].
      * intros Hn. destruct Hn. eauto.
    + apply Z.leb_gt in Hle. split_and!.
      * split; [done|]. intros (sc' & [= <-] & Hle'). lia.
      * split; [|done]. intros _ (sc' & [= <-] & Hle'). lia.
      * intros (sc' & [= <-] & Hle'). lia.
  - cbn. split_and!.
    + split; [done|]. by intros (sc' & ? & _).
    + split; [|done]. by intros _ (sc' & ? & _).
    + by intros (sc' & ? & _).
Qed.

(** C7: whenever [QAck] returns false the store is left as it was: the plan
    broke before its remove and add steps. *)
Theorem QAck_false_changes_nothing (c : QAckCommand) (now : time.Time) (s : Sets)
    (p : P) :
  (QAck c now (s, p)).2.1 = false → (QAck c now (s, p)).1 = (s, p).
Proof.
  unfold QAck. cbn [Query mc modelCore]. unfold modelQuery.
  cbn [fst snd]. rewrite runPlan_QAck.
  destruct (s !! _) as [sc|]; [|done].
  by destruct (newTS now <=? sc).
Qed.

Lemma addTo_lookup_other (ess : list EventSet) (score : TS) (acc : list Event)
    (s : Sets) (es : EventSet) (x : ID) :
  es ∉ ess → addTo ess score acc s !! (es, x) = s !! (es, x).
Proof.
  unfold addTo. revert s. induction ess as [|es1 ess IH]; intros s Hnot; [done|].
  apply not_elem_of_cons in Hnot as [Hne Hnot]. cbn [foldl]. rewrite IH by done.
  clear IH Hnot. revert s. induction acc as [|e acc IH]; intros s; [done|].
  cbn [foldl]. rewrite IH. apply lookup_insert_ne. congruence.
Qed.

Lemma inProgOrDone_lookup_other (c : QGetCommand) (s : Sets) (acc : list Event)
    (es : EventSet) (x : ID) :
  let q := QGetQueue c in
  let g := QGetConsumerGroup c in
  es ∉ [queueInProgressByID q g; queueInProgressByAck q g; queueDone q g] →
  (exec (inProgOrDone c) s acc).1 !! (es, x) = s !! (es, x).
Proof.
  intros q g Hnot. unfold inProgOrDone. fold q g.
  apply not_elem_of_cons in Hnot as (Hid & Hnot).
  apply not_elem_of_cons in Hnot as (Hack & Hnot).
  apply not_elem_of_cons in Hnot as (Hdone & _).
  destruct (negb _); rewrite !exec_addTo; cbn [exec fst EventSets Score];
    rewrite !addTo_lookup_other; try done;
    by apply not_elem_of_cons; split; [|apply not_elem_of_nil].
Qed.

Lemma minScore_union (j d : ID) :
  d ≤ j →
  minScore ([eventOfID j]
              ++ List.filter (fun e => negb (hasID [eventOfID j] e)) [eventOfID d])
  = Some d.
Proof.
  intros Hle. cbn. destruct (j =? d) eqn:E; cbn.
  - apply Z.eqb_eq in E. by subst.
  - f_equal. lia.
Qed.

(** C3, as the code has it: when redo holds no member later than now, [d] is
    the newest member of done later than now, the newest such member of
    in-progress-by-id, if there is one, has an id of at least [d], and [e] is
    the oldest member of available with a score later than [d], then the
    plan of [QGet] selects [e] and commits it, whatever older members
    available holds; [QGet] returns what [GetEvent] gives for [e]. *)
Theorem QGet_continues_after_newest_done (c : QGetCommand) (now : time.Time)
    (s : Sets) (p : P) (d e : ID) :
  let q := QGetQueue c in
  let g := QGetConsumerGroup c in
  newTS now ≠ 0 →
  (∀ x sc, ¬ above s (queueRedo q g) (newTS now) x sc) →
  newestAbove s (queueDone q g) (newTS now) d →
  (∀ j, newestAbove s (queueInProgressByID q g) (newTS now) j → d ≤ j) →
  oldestAbove s (queueAvailable q) d e →
  let s1 :=
    if time.IsZero (AckDeadline c)
    then <[(queueDone q g, e) := e]> s
    else <[(queueInProgressByAck q g, e) :=
             if newTS (AckDeadline c) =? 0 then e else newTS (AckDeadline c)]>
           (<[(queueInProgressByID q g, e) := e]> s) in
  runPlan (QGetActions c now) s = (s1, [eventOfID e])
  ∧ QGet c now (s, p) = ((s1, (getEvent e p).1), (getEvent e p).2).
Proof.
  intros q g Hnow Hredo Hdone Hinprog Havail s1.
  assert (Hrun : runPlan (QGetActions c now) s = (s1, [eventOfID e])).
  { rewrite runPlan_QGet. fold q g.
    rewrite (oldestSelect_pick now), !(mostRecentSelect_pick now) by done.
    destruct (pickRange_oldest s (queueRedo q g) (newTS now) (oldestSelect now))
      as [[-> _]|(x & _ & (sc & Ha & _))]; try reflexivity;
      [|by destruct (Hredo _ _ Ha)].
    destruct (pickRange_newest s (queueDone q g) (newTS now) (mostRecentSelect now))
      as [[_ Hnone]|(d' & -> & Hd')]; try reflexivity.
    { destruct Hdone as (sc & Ha & _). by destruct (Hnone _ _ Ha). }
    rewrite (newestAbove_unique _ _ _ _ _ Hd' Hdone).
    assert (Hmin : minScore
              (pickRange (Some (newTS now)) (mostRecentSelect now)
                 (ordered s (queueInProgressByID q g))
               ++ List.filter
                    (fun ev => negb (hasID
                       (pickRange (Some (newTS now)) (mostRecentSelect now)
                          (ordered s (queueInProgressByID q g))) ev))
                    [eventOfID d]) = Some d).
    { destruct (pickRange_newest s (queueInProgressByID q g) (newTS now)
                  (mostRecentSelect now))
        as [[-> _]|(j & -> & Hj)]; try reflexivity.
      by apply minScore_union, Hinprog. }
    assert (Hsel : ∀ b, minScore b = Some d →
              rangeSelect (mkRangeSelect 0 true 0 false true 1 false) b
                (ordered s (queueAvailable q)) = [eventOfID e]).
    { intros b Hb. unfold rangeSelect. cbn [MinFromInput]. rewrite Hb.
      destruct (pickRange_oldest s (queueAvailable q) d
                  (mkRangeSelect 0 true 0 false true 1 false))
        as [[_ Hnone]|(e' & -> & He')]; try reflexivity.
      { destruct Havail as (sc & Ha & _). by destruct (Hnone _ _ Ha). }
      by rewrite (oldestAbove_unique _ _ _ _ _ He' Havail). }
    rewrite (Hsel _ Hmin). by rewrite inProgOrDone_one. }
  split; [done|]. by apply (modelQuery_QGet _ _ _ _ _ _ []).
Qed.

Lemma redo_not_committed (q g : string) :
  queueRedo q g
  ∉ [queueInProgressByID q g; queueInProgressByAck q g; queueDone q g].
Proof. repeat (apply not_elem_of_cons; split; [done|]). apply not_elem_of_nil. Qed.

Lemma lapsed_not_picked (now : time.Time) (r : QueryEventRangeSelect) (s : Sets)
    (es : EventSet) (x : ID) (sc : TS) :
  MinExcl r = true → Max r = 0 →
  s !! (es, x) = Some sc → sc ≤ newTS now →
  eventOfID x ∉ pickRange (Some (newTS now)) r (ordered s es).
Proof.
  intros Hexcl Hmax Hl Hle Hin.
  apply elem_of_pickRange in Hin as ([y sy] & Hy & Hr & [= ->]).
  apply elem_of_ordered in Hy. cbn in Hy.
  apply (inRange_above _ _ Hexcl Hmax) in Hr. cbn in Hr.
  rewrite Hl in Hy. injection Hy as ->. lia.
Qed.

Lemma nextSelect_shape (b : list Event) (s : Sets) (es : EventSet) :
  let r2 := rangeSelect (mkRangeSelect 0 true 0 false true 1 false) b (ordered s es) in
  r2 = [] ∨ ∃ e sc, r2 = [eventOfID e] ∧ s !! (es, e) = Some sc.
Proof.
  unfold rangeSelect. cbn [MinFromInput]. destruct (minScore b) as [lo|]; [|by left].
  destruct (pickRange_oldest s es lo (mkRangeSelect 0 true 0 false true 1 false))
    as [[-> _]|(e & -> & (sc & [Hl _] & _))]; try reflexivity; [by left|].
  right. eauto.
Qed.

Lemma elem_of_posSelect (pos : list Z) (s : Sets) (es : EventSet) (e : Event) :
  e ∈ posSelect pos (ordered s es) → ∃ sc, s !! (es, EvID e) = Some sc.
Proof.
  unfold posSelect. destruct pos as [|a [|b [|]]]; try (by intros ?%elem_of_nil).
  rewrite list_elem_of_fmap. intros ([y sy] & -> & Hin).
  apply subseteq_take, subseteq_drop, elem_of_ordered in Hin. eauto.
Qed.

Lemma inProgOrDone_no_select (c : QGetCommand) (a : QueryAction) :
  a ∈ inProgOrDone c → ActSelector a = None.
Proof.
  unfold inProgOrDone. destruct (negb _); intros Hin;
    repeat (apply elem_of_cons in Hin as [->|Hin]); try done;
    by apply elem_of_nil in Hin.
Qed.

Lemma QGetActions_list (c : QGetCommand) (now : time.Time) :
  Actions (QGetActions c now)
  = redoBranch c now ++ inProgOrDone c ++ [breakIfFound] ++ nextBranch c now
    ++ inProgOrDone c ++ [breakIfFound] ++ [firstBranch c].
Proof. unfold QGetActions. cbn [Actions]. by rewrite <- !app_assoc. Qed.

(** The selects of the plan of [QGet], all five of them. *)
Lemma QGet_selects (c : QGetCommand) (now : time.Time) (a : QueryAction)
    (qs : QuerySelector) :
  let q := QGetQueue c in
  let g := QGetConsumerGroup c in
  a ∈ Actions (QGetActions c now) → ActSelector a = Some qs →
  qs ∈ [ rangeSelector (queueRedo q g) (oldestSelect now) false;
         rangeSelector (queueInProgressByID q g) (mostRecentSelect now) false;
         rangeSelector (queueDone q g) (mostRecentSelect now) true;
         rangeSelector (queueAvailable q) (mkRangeSelect 0 true 0 false true 1 false)
           false;
         posSelector (queueAvailable q) [0; 0] ].
Proof.
  intros q g. unfold QGetActions, redoBranch, nextBranch, firstBranch. fold q g.
  cbn [Actions app]. intros Hin Hsel.
  repeat first
    [ apply elem_of_cons in Hin as [->|Hin]
    | apply elem_of_app in Hin as [Hin|Hin] ];
    try (apply inProgOrDone_no_select in Hin; congruence);
    try (by apply elem_of_nil in Hin);
    try discriminate Hsel;
    cbn in Hsel; injection Hsel as <-; repeat first [by left | right].
Qed.

Lemma minScore_above (n : TS) (b : list Event) (lo : TS) :
  (∀ e, e ∈ b → n < EvID e) → minScore b = Some lo → n < lo.
Proof.
  destruct b as [|e b]; [discriminate|]. cbn. intros Hall [= <-].
  assert (He : n < EvID e) by (apply Hall; left).
  assert (Hb : ∀ e', e' ∈ b → n < EvID e') by (intros e' Hin; apply Hall; by right).
  clear Hall. induction b as [|e' b IH]; cbn; [done|].
  assert (n < EvID e') by (apply Hb; left).
  assert (n < foldr Z.min (EvID e) (EvID <$> b)).
  { apply IH. intros e'' Hin. apply Hb. by right. }
  lia.
Qed.

(** C10, as the code has it.  The selects of the plan of [QGet] on redo,
    in-progress-by-id and done are range selects with [Min] = now and
    [MinExcl], and the plan has one on each of the three.  When now is not
    the zero timestamp: an event whose score in one of these collections is
    at most now is never selected from it by a select of the plan; in redo
    it stays in redo; when no member of the three collections is later than
    now, a group with history is handed nothing; and for a group with
    history whose collections carry natural scores, every event the plan
    hands back has a score later than now, so none that lapsed. *)
Theorem QGet_passes_over_lapsed (c : QGetCommand) (now : time.Time) (s : Sets)
    (x : ID) (sc : TS) :
  let q := QGetQueue c in
  let g := QGetConsumerGroup c in
  let guarded := [queueRedo q g; queueInProgressByID q g; queueDone q g] in
  let history :=
    entries s (queueDone q g) ≠ [] ∨ entries s (queueInProgressByID q g) ≠ [] in
  newTS now ≠ 0 →
  sc ≤ newTS now →
  (∀ es, es ∈ guarded →
     ∃ a qs, a ∈ Actions (QGetActions c now) ∧ ActSelector a = Some qs
             ∧ SelEventSet qs = es)
  ∧ (∀ a qs, a ∈ Actions (QGetActions c now) → ActSelector a = Some qs →
       SelEventSet qs ∈ guarded →
       ∃ r, SelRange qs = Some r ∧ MinFromInput r = false
            ∧ Min r = newTS now ∧ MinExcl r = true
            ∧ (s !! (SelEventSet qs, x) = Some sc →
               ∀ acc, eventOfID x
                      ∉ rangeSelect r acc (ordered s (SelEventSet qs))))
  ∧ (s !! (queueRedo q g, x) = Some sc →
       (runPlan (QGetActions c now) s).1 !! (queueRedo q g, x) = Some sc)
  ∧ (history →
       (∀ es y sy, es ∈ guarded → ¬ above s es (newTS now) y sy) →
       (runPlan (QGetActions c now) s).2 = [])
  ∧ (history →
       (∀ es y sy, es ∈ queueAvailable q :: guarded →
                   s !! (es, y) = Some sy → sy = y) →
       (∀ e, e ∈ (runPlan (QGetActions c now) s).2 → newTS now < EvID e)
       ∧ (∀ es, es ∈ guarded → s !! (es, x) = Some sc →
            ∀ e, e ∈ (runPlan (QGetActions c now) s).2 → EvID e ≠ x)).
Proof.
  intros q g guarded history Hnow Hle.
  assert (Hguard : history →
            bool_decide (entries s (queueDone q g) = [])
            && bool_decide (entries s (queueInProgressByID q g) = []) = false).
  { intros [Hd|Hi].
    - by rewrite (bool_decide_eq_false_2 _ Hd).
    - rewrite (bool_decide_eq_false_2 _ Hi). apply andb_false_r. }
  assert (Hpicked : ∀ r es e,
            MinExcl r = true → Max r = 0 →
            e ∈ pickRange (Some (newTS now)) r (ordered s es) →
            ∃ sy, above s es (newTS now) (EvID e) sy).
  { intros r es e Hexcl Hmax Hin.
    apply elem_of_pickRange in Hin as ([y sy] & Hy & Hr & ->).
    apply elem_of_ordered in Hy. apply (inRange_above _ _ Hexcl Hmax) in Hr.
    exists sy. by split. }
  split_and!.
  - intros es Hes. rewrite QGetActions_list. fold q g. unfold guarded in Hes.
    apply elem_of_cons in Hes as [->|Hes];
      [|apply elem_of_cons in Hes as [->|Hes];
        [|apply elem_of_cons in Hes as [->|Hes]; [|by apply elem_of_nil in Hes]]].
    + exists (selectAction (rangeSelector (queueRedo q g) (oldestSelect now) false)
                noCond), (rangeSelector (queueRedo q g) (oldestSelect now) false).
      split_and!; [|done|done]. apply elem_of_app. left. apply elem_of_cons. by left.
    + exists (selectAction
                (rangeSelector (queueInProgressByID q g) (mostRecentSelect now) false)
                noCond),
             (rangeSelector (queueInProgressByID q g) (mostRecentSelect now) false).
      split_and!; [|done|done]. do 3 (apply elem_of_app; right).
      apply elem_of_app. left. apply elem_of_cons. by left.
    + exists (selectAction
                (rangeSelector (queueDone q g) (mostRecentSelect now) true) noCond),
             (rangeSelector (queueDone q g) (mostRecentSelect now) true).
      split_and!; [|done|done]. do 3 (apply elem_of_app; right).
      apply elem_of_app. left. apply elem_of_cons. right. apply elem_of_cons. by left.
  - intros a qs Hin Hsel Hes.
    pose proof (QGet_selects c now a qs Hin Hsel) as Hqs. fold q g in Hqs.
    unfold guarded in Hes.
    repeat (apply elem_of_cons in Hqs as [->|Hqs]);
      [| | | | |by apply elem_of_nil in Hqs].
    + exists (oldestSelect now). split_and!; try done. intros Hl acc.
      rewrite (oldestSelect_pick now) by done. by eapply lapsed_not_picked.
    + exists (mostRecentSelect now). split_and!; try done. intros Hl acc.
      rewrite (mostRecentSelect_pick now) by done. by eapply lapsed_not_picked.
    + exists (mostRecentSelect now). split_and!; try done. intros Hl acc.
      rewrite (mostRecentSelect_pick now) by done. by eapply lapsed_not_picked.
    + cbn in Hes. exfalso.
      repeat (apply elem_of_cons in Hes as [Heq|Hes]); try discriminate Heq.
      by apply elem_of_nil in Hes.
    + cbn in Hes. exfalso.
      repeat (apply elem_of_cons in Hes as [Heq|Hes]); try discriminate Heq.
      by apply elem_of_nil in Hes.
  - intros Hl. rewrite runPlan_QGet. fold q g. rewrite (oldestSelect_pick now) by done.
    destruct (pickRange_oldest s (queueRedo q g) (newTS now) (oldestSelect now))
      as [[-> _]|(y & -> & (sy & [Hy Hlt] & _))]; try reflexivity.
    + destruct (nextSelect_shape
                  (rangeSelect (mostRecentSelect now) []
                     (ordered s (queueInProgressByID q g))
                   ++ List.filter
                        (fun ev => negb (hasID
                           (rangeSelect (mostRecentSelect now) []
                              (ordered s (queueInProgressByID q g))) ev))
                        (rangeSelect (mostRecentSelect now)
                           (rangeSelect (mostRecentSelect now) []
                              (ordered s (queueInProgressByID q g)))
                           (ordered s (queueDone q g))))
                  s (queueAvailable q)) as [->|(e2 & sc2 & -> & Hl2)]; [done|].
      cbn [fst]. by rewrite inProgOrDone_lookup_other by apply redo_not_committed.
    + cbn [fst]. rewrite inProgOrDone_lookup_other by apply redo_not_committed.
      cbn. rewrite lookup_delete_ne; [done|].
      intros [= ->]. rewrite Hl in Hy. injection Hy as ->. lia.
  - intros Hhist Hnone. rewrite runPlan_QGet. fold q g.
    rewrite (oldestSelect_pick now), !(mostRecentSelect_pick now) by done.
    destruct (pickRange_oldest s (queueRedo q g) (newTS now) (oldestSelect now))
      as [[-> _]|(y & _ & (sy & Ha & _))]; try reflexivity;
      [|destruct (Hnone (queueRedo q g) y sy); [apply elem_of_cons; by left|done]].
    destruct (pickRange_newest s (queueInProgressByID q g) (newTS now)
                (mostRecentSelect now))
      as [[-> _]|(y & _ & (sy & Ha & _))]; try reflexivity;
      [|destruct (Hnone (queueInProgressByID q g) y sy);
        [apply elem_of_cons; right; apply elem_of_cons; by left|done]].
    destruct (pickRange_newest s (queueDone q g) (newTS now) (mostRecentSelect now))
      as [[-> _]|(y & _ & (sy & Ha & _))]; try reflexivity;
      [|destruct (Hnone (queueDone q g) y sy);
        [do 2 (apply elem_of_cons; right); apply elem_of_cons; by left|done]].
    cbn [app List.filter].
    change (rangeSelect (mkRangeSelect 0 true 0 false true 1 false) []
              (ordered s (queueAvailable q))) with (@nil Event).
    by rewrite (Hguard Hhist).
  - intros Hhist Hnat.
    assert (Hlate : ∀ e, e ∈ (runPlan (QGetActions c now) s).2 → newTS now < EvID e).
    { assert (Hdrawn : ∀ r es e,
                MinExcl r = true → Max r = 0 → es ∈ guarded →
                e ∈ pickRange (Some (newTS now)) r (ordered s es) →
                newTS now < EvID e).
      { intros r es e Hexcl Hmax Hes Hin.
        destruct (Hpicked r es e Hexcl Hmax Hin) as (sy & Hl & Hlt).
        rewrite <- (Hnat es (EvID e) sy) at 1; [done| |done].
        apply elem_of_cons. by right. }
      intros e. rewrite runPlan_QGet. fold q g.
      rewrite (oldestSelect_pick now), !(mostRecentSelect_pick now) by done.
      destruct (pickRange (Some (newTS now)) (oldestSelect now)
                  (ordered s (queueRedo q g))) as [|e1 t1] eqn:E1.
      - match goal with
        | |- context [rangeSelect (mkRangeSelect 0 true 0 false true 1 false) ?b ?l] =>
          assert (Hb : ∀ e', e' ∈ b → newTS now < EvID e');
            [|destruct (rangeSelect (mkRangeSelect 0 true 0 false true 1 false) b l)
                as [|e2 t2] eqn:E2]
        end.
        + intros e' Hin. apply elem_of_app in Hin as [Hin|Hin].
          * eapply (Hdrawn (mostRecentSelect now) (queueInProgressByID q g));
              [done|done| |exact Hin].
            apply elem_of_cons. right. apply elem_of_cons. by left.
          * apply list_elem_of_In, filter_In in Hin as [Hin _].
            apply list_elem_of_In in Hin.
            eapply (Hdrawn (mostRecentSelect now) (queueDone q g));
              [done|done| |exact Hin].
            do 2 (apply elem_of_cons; right). apply elem_of_cons. by left.
        + cbn [snd]. rewrite (Hguard Hhist). by intros ?%elem_of_nil.
        + cbn [snd]. rewrite <- E2. unfold rangeSelect. cbn [MinFromInput].
          destruct (minScore _) as [lo|] eqn:Hlo; [|by intros ?%elem_of_nil].
          apply (minScore_above (newTS now)) in Hlo; [|exact Hb].
          intros Hin. apply elem_of_pickRange in Hin as ([y sy] & Hy & Hr & ->).
          apply elem_of_ordered in Hy.
          apply (inRange_above lo (mkRangeSelect 0 true 0 false true 1 false)
                   eq_refl eq_refl) in Hr.
          cbn in Hy, Hr |- *.
          rewrite (Hnat (queueAvailable q) y sy) in Hr; [lia| |done].
          apply elem_of_cons. by left.
      - cbn [snd]. rewrite <- E1.
        apply (Hdrawn (oldestSelect now) (queueRedo q g)); [done|done|].
        apply elem_of_cons. by left. }
    split; [exact Hlate|].
    intros es Hes Hl e Hin Heq. apply Hlate in Hin.
    rewrite (Hnat es x sc) in Hle; [lia| |done].
    apply elem_of_cons. by right.
Qed.
End Model.

(** ** [QAdd] *)

Lemma runPlan_QAdd {Store : Type} `{Core Store} (c : QAddCommand) (e : Event)
    (s : Sets) :
  runPlan (QAddActions c e) s
  = (<[(queueAvailable (QAddQueue c), EvID e) := EvID e]> s, [e]).
Proof.
  unfold runPlan, QAddActions. cbn [Actions]. by rewrite exec_select, exec_addTo.
Qed.

(** C8: a failure of [NewEvent] or of [SetEvent] ends [QAdd] with a zero id
    and that error, in the store the failed call left, so without a call of
    [Query]; when all three calls succeed [QAdd] returns the id of the new
    event.  On a store that runs the plan, an error of [QAdd] leaves every
    collection as it was, and success adds the event to available. *)
Theorem QAdd_aborts_before_the_plan :
  (∀ Store (C : Core Store) (c : QAddCommand) st st1 e x,
      NewEvent (Expire c) (QAddContents c) st = (st1, (e, Some x)) →
      QAdd c st = (st1, (0, Some x)))
  ∧ (∀ Store (C : Core Store) (c : QAddCommand) st st1 st2 e x,
      NewEvent (Expire c) (QAddContents c) st = (st1, (e, None)) →
      SetEvent e (30 * time.Second) st1 = (st2, Some x) →
      QAdd c st = (st2, (0, Some x)))
  ∧ (∀ Store (C : Core Store) (c : QAddCommand) st st1 st2 st3 e ee,
      NewEvent (Expire c) (QAddContents c) st = (st1, (e, None)) →
      SetEvent e (30 * time.Second) st1 = (st2, None) →
      Query (QAddActions c e) st2 = (st3, (ee, None)) →
      QAdd c st = (st3, (EvID e, None)))
  ∧ (∀ P newTS newEvent setEvent getEvent (c : QAddCommand)
       (s s1 : Sets) (p p1 : P) id x,
      @QAdd _ (modelCore newTS newEvent setEvent getEvent) c (s, p)
      = ((s1, p1), (id, Some x)) →
      s1 = s ∧ id = 0)
  ∧ (∀ P newTS newEvent setEvent getEvent (c : QAddCommand)
       (s s1 : Sets) (p p1 : P) id,
      @QAdd _ (modelCore newTS newEvent setEvent getEvent) c (s, p)
      = ((s1, p1), (id, None)) →
      s1 = <[(queueAvailable (QAddQueue c), id) := id]> s).
Proof.
  split_and!.
  - intros. by eapply QAdd_no_id.
  - intros. by eapply QAdd_no_storage.
  - intros. by eapply QAdd_done.
  - intros P newTS newEvent setEvent getEvent c s s1 p p1 id x.
    unfold QAdd. cbn [NewEvent SetEvent Query modelCore].
    unfold onServices, modelQuery. cbn [fst snd].
    destruct (newEvent _ _ p) as [p2 [e [x1|]]]; cbv beta iota; cbn [fst snd];
      [by intros ?; simplify_eq|].
    destruct (setEvent e (30 * time.Second) p2) as [p3 [x2|]]; cbv beta iota;
      cbn [fst snd]; [by intros ?; simplify_eq|].
    cbn [fst snd].
    rewrite (runPlan_QAdd (H := modelCore newTS newEvent setEvent getEvent)).
    discriminate.
  - intros P newTS newEvent setEvent getEvent c s s1 p p1 id.
    unfold QAdd. cbn [NewEvent SetEvent Query modelCore].
    unfold onServices, modelQuery. cbn [fst snd].
    destruct (newEvent _ _ p) as [p2 [e [x1|]]]; cbv beta iota; cbn [fst snd];
      [discriminate|].
    destruct (setEvent e (30 * time.Second) p2) as [p3 [x2|]]; cbv beta iota;
      cbn [fst snd]; [discriminate|].
    cbn [fst snd].
    rewrite (runPlan_QAdd (H := modelCore newTS newEvent setEvent getEvent)).
    cbv beta iota. cbn [fst snd]. intros ?. by simplify_eq.
Qed.

(** ** Evaluations on the example store *)

(** C1: the select of the third branch is the last step of the plan of
    [QGet], no commit steps follow it.  On a queue with events 7 and 8 and a
    group without history, [QGet] without deadline returns event 7, leaves
    done as empty as it was, and returns event 7 again when called again. *)
Theorem QGet_first_branch_not_committed :
  (∀ Store (C : Core Store) (c : QGetCommand) now,
      last (Actions (QGetActions c now)) = Some (firstBranch c))
  ∧ let st := (example.sets [(7, 7); (8, 8)] [] [] [] [],
               [mkEvent 7 "x"; mkEvent 8 "y"]) in
    let r := @QGet _ example.core (example.get 0) 1 st in
    r.2 = (mkEvent 7 "x", None)
    ∧ example.view r.1.1 = [[(7, 7); (8, 8)]; []; []; []; []]
    ∧ (@QGet _ example.core (example.get 0) 2 r.1).2 = (mkEvent 7 "x", None).
Proof.
  split.
  - intros Store C c now. unfold QGetActions. cbn [Actions]. apply last_snoc.
  - vm_compute. done.
Qed.

(** C4: on the same queue, [QGet] with the deadline 100 returns event 7 and
    adds it to neither in-progress collection; without deadline it returns
    event 7 and does not add it to done. *)
Theorem QGet_first_branch_skips_the_tail :
  let st := (example.sets [(7, 7); (8, 8)] [] [] [] [],
             [mkEvent 7 "x"; mkEvent 8 "y"]) in
  let withDeadline := @QGet _ example.core (example.get 100) 1 st in
  let without := @QGet _ example.core (example.get 0) 1 st in
  withDeadline.2 = (mkEvent 7 "x", None)
  ∧ interp.entries withDeadline.1.1 (queueInProgressByID "q" "g") = []
  ∧ interp.entries withDeadline.1.1 (queueInProgressByAck "q" "g") = []
  ∧ without.2 = (mkEvent 7 "x", None)
  ∧ interp.entries without.1.1 (queueDone "q" "g") = [].
Proof. vm_compute. done. Qed.

(** Against C2 as stated: redo holds event 3, whose score is not later than
    now = 5; [QGet] returns event 8 of available and leaves 3 in redo. *)
Lemma QGet_redo_lapsed_counterexample :
  let s := example.sets [(3, 3); (8, 8)] [] [] [(3, 3)] [(7, 7)] in
  let r := runPlan (@QGetActions _ example.core (example.get 0) 5) s in
  interp.entries s (queueRedo "q" "g") = [(3, 3)]
  ∧ r.2 = [eventOfID 8]
  ∧ interp.entries r.1 (queueRedo "q" "g") = [(3, 3)].
Proof. vm_compute. done. Qed.

(** Against C3 as stated: event 5 comes back from redo and is done at once
    while done already holds event 9; with redo empty, the next [QGet]
    returns event 10, although 6 is the smallest id of available above 5. *)
Lemma QGet_continuation_counterexample :
  let s := example.sets [(5, 5); (6, 6); (10, 10)] [] [] [(5, 5)] [(9, 9)] in
  let r1 := runPlan (@QGetActions _ example.core (example.get 0) 1) s in
  let r2 := runPlan (@QGetActions _ example.core (example.get 0) 2) r1.1 in
  r1.2 = [eventOfID 5]
  ∧ interp.entries r1.1 (queueRedo "q" "g") = []
  ∧ interp.ordered r1.1 (queueAvailable "q") = [(5, 5); (6, 6); (10, 10)]
  ∧ r2.2 = [eventOfID 10].
Proof. vm_compute. done. Qed.

(** Against C10 as stated: event 3 is in redo with a score that is not later
    than now = 5, and [QGet] returns it, from available. *)
Lemma QGet_lapsed_returned_counterexample :
  let st := (example.sets [(3, 3)] [] [] [(3, 3)] [], [mkEvent 3 "x"]) in
  st.1 !! (queueRedo "q" "g", 3) = Some 3
  ∧ (@QGet _ example.core (example.get 0) 5 st).2 = (mkEvent 3 "x", None).
Proof. vm_compute. done. Qed.

(** ** The theorems at concrete inputs *)

Lemma QGet_empty_is_no_error_witness :
  let st : Sets * list Event := (example.sets [] [] [] [] [], []) in
  @Query _ example.core (@QGetActions _ example.core (example.get 0) 1) st
  = (st, ([], None))
  ∧ @QGet _ example.core (example.get 0) 1 st = (st, (zeroEvent, None)).
Proof.
  intros st.
  assert (Hq : @Query _ example.core (@QGetActions _ example.core (example.get 0) 1) st
               = (st, ([], None))) by (vm_compute; reflexivity).
  split; [exact Hq|].
  exact (@QGet_empty_is_no_error _ example.core (example.get 0) 1 st st [] Hq eq_refl).
Defined.

Lemma QGet_takes_oldest_redo_witness :
  let s := example.sets [(3, 3); (8, 8)] [] [] [(4, 4); (6, 6)] [(7, 7)] in
  ∃ x, oldestAbove s (queueRedo "q" "g") 1 x
    ∧ runPlan (@QGetActions _ example.core (example.get 0) 1) s
      = (<[(queueDone "q" "g", x) := x]> (delete (queueRedo "q" "g", x) s),
         [eventOfID x]).
Proof.
  intros s.
  destruct (QGet_takes_oldest_redo example.newTS example.newEvent example.setEvent
              example.getEvent (example.get 0) 1 s [])
    as (x & Hold & Hrun & _).
  - vm_compute. discriminate.
  - exists 4, 4. split; [vm_compute; reflexivity | vm_compute; reflexivity].
  - exists x. split; [exact Hold | exact Hrun].
Defined.

Lemma QGet_continues_after_newest_done_witness :
  let s := example.sets [(3, 3); (5, 5); (6, 6); (8, 8)] [] [] [] [(4, 4); (5, 5)] in
  runPlan (@QGetActions _ example.core (example.get 0) 1) s
  = (<[(queueDone "q" "g", 6) := 6]> s, [eventOfID 6]).
Proof.
  intros s.
  apply (QGet_continues_after_newest_done example.newTS example.newEvent
           example.setEvent example.getEvent (example.get 0) 1 s [] 5 6).
  - vm_compute. discriminate.
  - apply none_above_by_select. vm_compute. reflexivity.
  - apply newestAbove_by_select. vm_compute. reflexivity.
  - intros j (sc & Ha & _). exfalso. revert Ha.
    apply none_above_by_select. vm_compute. reflexivity.
  - apply oldestAbove_by_select. vm_compute. reflexivity.
Defined.

Lemma QAck_true_iff_in_time_witness :
  let s := example.sets [(7, 7)] [(7, 7)] [(7, 100)] [] [] in
  (@QAck _ example.core (example.ack 7) 50 (s, [])).2 = (true, None).
Proof.
  intros s.
  apply (QAck_true_iff_in_time example.newTS example.newEvent example.setEvent
           example.getEvent (example.ack 7) 50 s []).
  exists 100. split; [vm_compute; reflexivity | vm_compute; discriminate].
Defined.

Lemma QAck_false_changes_nothing_witness :
  let s := example.sets [(7, 7)] [(7, 7)] [(7, 100)] [] [] in
  (@QAck _ example.core (example.ack 7) 101 (s, [])).1 = (s, []).
Proof.
  intros s.
  apply (QAck_false_changes_nothing example.newTS example.newEvent example.setEvent
           example.getEvent (example.ack 7) 101 s []).
  vm_compute. reflexivity.
Defined.

Lemma QAdd_aborts_before_the_plan_witness :
  let c := mkQAdd (mkClient "c1") "q" 60 "x" in
  let st : Sets * list Event := (example.sets [] [] [] [] [], []) in
  @QAdd _ example.noID c st = (st, (0, Some "no id"))
  ∧ @QAdd _ example.noStorage c st = (st, (0, Some "no storage")).
Proof.
  intros c st. destruct QAdd_aborts_before_the_plan as (Hid & Hset & _).
  split.
  - apply (Hid _ example.noID c st st zeroEvent). reflexivity.
  - apply (Hset _ example.noStorage c st st st (mkEvent 60 "x")); reflexivity.
Defined.

Lemma QGet_passes_over_lapsed_witness :
  let s := example.sets [(3, 3); (8, 8)] [] [] [(3, 3)] [(7, 7)] in
  let r := runPlan (@QGetActions _ example.core (example.get 0) 5) s in
  r.1 !! (queueRedo "q" "g", 3) = Some 3
  ∧ (∀ e, e ∈ r.2 → example.newTS 5 < EvID e)
  ∧ (∀ e, e ∈ r.2 → EvID e ≠ 3).
Proof.
  intros s r.
  assert (Hnow : example.newTS 5 ≠ 0) by (vm_compute; discriminate).
  assert (Hle : 3 ≤ example.newTS 5) by (vm_compute; discriminate).
  assert (Hredo : s !! (queueRedo "q" "g", 3) = Some 3) by (vm_compute; reflexivity).
  assert (Hhist : entries s (queueDone "q" "g") ≠ []
                  ∨ entries s (queueInProgressByID "q" "g") ≠ []).
  { left. vm_compute. discriminate. }
  assert (Havail : ordered s (queueAvailable "q") = [(3, 3); (8, 8)])
    by (vm_compute; reflexivity).
  assert (Hr : ordered s (queueRedo "q" "g") = [(3, 3)]) by (vm_compute; reflexivity).
  assert (Hi : ordered s (queueInProgressByID "q" "g") = [])
    by (vm_compute; reflexivity).
  assert (Hd : ordered s (queueDone "q" "g") = [(7, 7)]) by (vm_compute; reflexivity).
  assert (Hnat : ∀ es y sy,
            es ∈ [queueAvailable "q"; queueRedo "q" "g";
                  queueInProgressByID "q" "g"; queueDone "q" "g"] →
            s !! (es, y) = Some sy → sy = y).
  { clear Hnow Hle Hredo Hhist. intros es y sy Hes Hl.
    apply (elem_of_ordered s es (y, sy)) in Hl.
    repeat (apply elem_of_cons in Hes as [->|Hes]);
      [rewrite Havail in Hl|rewrite Hr in Hl|rewrite Hi in Hl|rewrite Hd in Hl|
       destruct (proj1 (elem_of_nil _) Hes)];
      repeat (apply elem_of_cons in Hl as [Heq|Hl]);
      first [ destruct (proj1 (elem_of_nil _) Hl)
            | injection Heq as -> ->; reflexivity ]. }
  destruct (QGet_passes_over_lapsed example.newTS example.newEvent example.setEvent
              example.getEvent (example.get 0) 5 s 3 3 Hnow Hle)
    as (_ & _ & Hkept & _ & Hlate).
  destruct (Hlate Hhist Hnat) as [Hall Hnot].
  split_and!.
  - exact (Hkept Hredo).
  - exact Hall.
  - apply (Hnot (queueRedo "q" "g")); [|exact Hredo]. apply elem_of_cons. by left.
Defined.

(** * Further properties of the commands *)

(** ** Errors of [Query] *)

(** X1: Every command passes an error of [Query] on unchanged, with the zero
    value of its result: [QAdd] after the id was made and the payload
    stored, [QGet] without a call of [GetEvent] and whatever list came with
    the error, [QAck] with false. *)
Theorem Query_error_is_passed_on {Store : Type} `{Core Store} (x : error) :
  (∀ (c : QAddCommand) st st1 st2 st3 e ee,
      NewEvent (Expire c) (QAddContents c) st = (st1, (e, None)) →
      SetEvent e (30 * time.Second) st1 = (st2, None) →
      Query (QAddActions c e) st2 = (st3, (ee, Some x)) →
      QAdd c st = (st3, (0, Some x)))
  ∧ (∀ (c : QGetCommand) now st st1 ee,
      Query (QGetActions c now) st = (st1, (ee, Some x)) →
      QGet c now st = (st1, (zeroEvent, Some x)))
  ∧ (∀ (c : QAckCommand) now st st1 ee,
      Query (QAckActions c now) st = (st1, (ee, Some x)) →
      QAck c now st = (st1, (false, Some x))).
Proof.
  split_and!.
  - intros c st st1 st2 st3 e ee Hn Hs Hq. unfold QAdd. by rewrite Hn, Hs, Hq.
  - intros c now st st1 ee Hq. unfold QGet. by rewrite Hq.
  - intros c now st st1 ee Hq. unfold QAck. by rewrite Hq.
Qed.

(** ** Sizes and frames of the plans *)

Lemma pickRange_short (lo : option TS) (r : QueryEventRangeSelect) (l : list (ID * TS)) :
  Limit r = 1 → (length (pickRange lo r l) ≤ 1)%nat.
Proof.
  intros Hlimit. unfold pickRange, limited. rewrite Hlimit.
  change (1 =? 0) with false. cbv iota.
  rewrite length_fmap, length_take. change (Z.to_nat 1) with 1%nat. lia.
Qed.

Lemma rangeSelect_short (r : QueryEventRangeSelect) (acc : list Event)
    (l : list (ID * TS)) :
  Limit r = 1 → (length (rangeSelect r acc l) ≤ 1)%nat.
Proof.
  intros Hlimit. unfold rangeSelect.
  destruct (MinFromInput r); [destruct (minScore acc)|];
    first [by apply pickRange_short | cbn; lia].
Qed.

Lemma removeFrom_lookup_other (ess : list EventSet) (acc : list Event) (s : Sets)
    (es : EventSet) (x : ID) :
  es ∉ ess → removeFrom ess acc s !! (es, x) = s !! (es, x).
Proof.
  unfold removeFrom. revert s. induction ess as [|es1 ess IH]; intros s Hnot; [done|].
  apply not_elem_of_cons in Hnot as [Hne Hnot]. cbn [foldl]. rewrite IH by done.
  clear IH Hnot. revert s. induction acc as [|e acc IH]; intros s; [done|].
  cbn [foldl]. rewrite IH. apply lookup_delete_ne. congruence.
Qed.

Section ModelFrames.
Context {P : Type}.
Variable newTS : time.Time -> TS.
Variable newEvent : time.Time -> string -> P -> P * (Event * option error).
Variable setEvent : Event -> time.Duration -> P -> P * option error.
Variable getEvent : ID -> P -> P * (Event * option error).
Let mc : Core (Sets * P) := modelCore newTS newEvent setEvent getEvent.
#[local] Existing Instance mc.

(** X2: The plan of [QGet] hands back at most one event, at any time and on any
    store: the event that [QGet] fetches is all that the plan selected. *)
Theorem QGet_plan_at_most_one (c : QGetCommand) (now : time.Time) (s : Sets) :
  (length (runPlan (QGetActions c now) s).2 ≤ 1)%nat.
Proof.
  rewrite (runPlan_QGet newTS newEvent setEvent getEvent).
  pose proof (rangeSelect_short (oldestSelect now) []
                (ordered s (queueRedo (QGetQueue c) (QGetConsumerGroup c))) eq_refl)
    as H1.
  destruct (rangeSelect (oldestSelect now) [] _) as [|e1 t1]; [|exact H1].
  match goal with
  | |- context [rangeSelect (mkRangeSelect 0 true 0 false true 1 false) ?b ?l] =>
    pose proof (rangeSelect_short (mkRangeSelect 0 true 0 false true 1 false) b l
                  eq_refl) as H2;
    destruct (rangeSelect (mkRangeSelect 0 true 0 false true 1 false) b l)
      as [|e2 t2]; [|exact H2]
  end.
  cbn [snd]. destruct (_ && _); [|cbn; lia].
  unfold posSelect. rewrite length_fmap, length_take.
  change (Z.to_nat (0 - 0 + 1)) with 1%nat. lia.
Qed.

(** X3: A [QGet] whose plan hands back nothing changes no collection. *)
Theorem QGet_nothing_found_nothing_changed (c : QGetCommand) (now : time.Time)
    (s : Sets) :
  (runPlan (QGetActions c now) s).2 = [] → (runPlan (QGetActions c now) s).1 = s.
Proof.
  rewrite (runPlan_QGet newTS newEvent setEvent getEvent).
  destruct (rangeSelect (oldestSelect now) [] _) as [|e1 t1]; [|discriminate].
  match goal with
  | |- context [rangeSelect (mkRangeSelect 0 true 0 false true 1 false) ?b ?l] =>
    destruct (rangeSelect (mkRangeSelect 0 true 0 false true 1 false) b l)
      as [|e2 t2]; [done|discriminate]
  end.
Qed.

(** X4: The plan of [QGet] writes to the redo, the two in-progress and the done
    collection of its own queue and group only: available, and every
    collection of another queue or group, is left as it was. *)
Theorem QGet_frame (c : QGetCommand) (now : time.Time) (s : Sets)
    (es : EventSet) (x : ID) :
  let q := QGetQueue c in
  let g := QGetConsumerGroup c in
  es ∉ [queueRedo q g; queueInProgressByID q g; queueInProgressByAck q g;
        queueDone q g] →
  (runPlan (QGetActions c now) s).1 !! (es, x) = s !! (es, x).
Proof.
  intros q g Hnot.
  apply not_elem_of_cons in Hnot as [Hredo Hnot].
  rewrite (runPlan_QGet newTS newEvent setEvent getEvent). fold q g.
  destruct (rangeSelect (oldestSelect now) [] _) as [|e1 t1].
  - match goal with
    | |- context [rangeSelect (mkRangeSelect 0 true 0 false true 1 false) ?b ?l] =>
      destruct (rangeSelect (mkRangeSelect 0 true 0 false true 1 false) b l)
        as [|e2 t2]; [done|]
    end.
    cbn [fst]. by rewrite (inProgOrDone_lookup_other newTS newEvent setEvent getEvent).
  - cbn [fst].
    rewrite (inProgOrDone_lookup_other newTS newEvent setEvent getEvent) by done.
    apply removeFrom_lookup_other.
    by apply not_elem_of_cons; split; [|apply not_elem_of_nil].
Qed.
End ModelFrames.

(** ** Writes of [AddTo] *)

Lemma addTo_lookup_in (es : EventSet) (score : TS) (acc : list Event) (s : Sets)
    (e : Event) :
  e ∈ acc → addTo [es] score acc s !! (es, EvID e) = Some (addScore score e).
Proof.
  unfold addTo. cbn [foldl]. induction acc as [|a acc IH] using rev_ind.
  { by intros ?%elem_of_nil. }
  intros Hin. rewrite foldl_app. cbn [foldl].
  destruct (decide (EvID a = EvID e)) as [Heq|Hne].
  - rewrite Heq, lookup_insert_eq. unfold addScore. by rewrite Heq.
  - rewrite lookup_insert_ne by congruence. apply IH.
    apply elem_of_app in Hin as [Hin|Hin]; [done|].
    apply list_elem_of_singleton in Hin. by subst.
Qed.

Lemma addTo_is_Some (es es' : EventSet) (score : TS) (acc : list Event) (s : Sets)
    (x : ID) :
  is_Some (addTo [es] score acc s !! (es', x))
  ↔ is_Some (s !! (es', x)) ∨ (es' = es ∧ x ∈ EvID <$> acc).
Proof.
  unfold addTo. cbn [foldl]. induction acc as [|a acc IH] using rev_ind.
  { cbn. split; [by left|]. intros [?|[_ ?%elem_of_nil]]; done. }
  rewrite foldl_app. cbn [foldl]. rewrite lookup_insert_is_Some, IH.
  rewrite fmap_app, elem_of_app. cbn. rewrite list_elem_of_singleton. split.
  - intros [Heq|[Hne [Hs|[He Hx]]]].
    + injection Heq as -> ->. right. split; [done|by right].
    + by left.
    + right. split; [done|by left].
  - intros Hor. destruct (decide ((es, EvID a) = (es', x))) as [Heq|Hne]; [by left|].
    right. split; [done|]. destruct Hor as [Hs|[-> [Hx| ->]]].
    + by left.
    + by right.
    + by destruct Hne.
Qed.

Section ModelAcks.
Context {P : Type}.
Variable newTS : time.Time -> TS.
Variable newEvent : time.Time -> string -> P -> P * (Event * option error).
Variable setEvent : Event -> time.Duration -> P -> P * option error.
Variable getEvent : ID -> P -> P * (Event * option error).
Let mc : Core (Sets * P) := modelCore newTS newEvent setEvent getEvent.
#[local] Existing Instance mc.

Lemma QAck_model (c : QAckCommand) (now : time.Time) (s : Sets) (p : P) :
  QAck c now (s, p)
  = (((runPlan (QAckActions c now) s).1, p),
     (bool_decide (0 < length (runPlan (QAckActions c now) s).2)%nat, None)).
Proof.
  unfold QAck. cbn [Query mc modelCore]. unfold modelQuery. cbn [fst snd].
  by destruct (runPlan (QAckActions c now) s).
Qed.

(** X5: The plan of [QAck] writes to three entries only: the entries of the
    acknowledged event in done and in the two in-progress collections of its
    queue and group. *)
Theorem QAck_frame (c : QAckCommand) (now : time.Time) (s : Sets)
    (k : EventSet * ID) :
  let q := QAckQueue c in
  let g := QAckConsumerGroup c in
  let id := EvID (QAckEvent c) in
  k ∉ [(queueDone q g, id); (queueInProgressByAck q g, id);
       (queueInProgressByID q g, id)] →
  (runPlan (QAckActions c now) s).1 !! k = s !! k.
Proof.
  intros q g id Hnot.
  apply not_elem_of_cons in Hnot as [Hdone Hnot].
  apply not_elem_of_cons in Hnot as [Hack Hnot].
  apply not_elem_of_cons in Hnot as [Hid _].
  rewrite (runPlan_QAck newTS newEvent setEvent getEvent). fold q g id.
  destruct (s !! (queueInProgressByAck q g, id)) as [sc|]; [|done].
  destruct (newTS now <=? sc); [|done]. cbn [fst].
  by rewrite lookup_insert_ne, !lookup_delete_ne.
Qed.

(** X6: After a [QAck] that returned true, a second [QAck] of the same event
    returns false, at any later or earlier time, and changes nothing. *)
Theorem QAck_twice (c : QAckCommand) (now now' : time.Time) (s : Sets) (p : P) :
  (QAck c now (s, p)).2 = (true, None) →
  QAck c now' (QAck c now (s, p)).1 = ((QAck c now (s, p)).1, (false, None)).
Proof.
  rewrite (QAck_model c now s p). cbn [fst snd].
  rewrite (runPlan_QAck newTS newEvent setEvent getEvent c now).
  destruct (s !! (_, _)) as [sc|]; [|discriminate].
  destruct (newTS now <=? sc); [|discriminate]. intros _. cbn [fst snd].
  rewrite QAck_model, (runPlan_QAck newTS newEvent setEvent getEvent c now').
  by rewrite lookup_insert_ne, lookup_delete_eq.
Qed.

(** X7: An event that [QGet] handed out with a deadline, for a group that has
    done or in-progress events already, can be acknowledged until the
    deadline and not after it: [QAck] returns true exactly when its now is
    not later than the deadline. *)
Theorem QGet_then_QAck (c : QGetCommand) (now now' : time.Time) (s : Sets) (p : P)
    (x : ID) (cl : Client) (contents : string) :
  let q := QGetQueue c in
  let g := QGetConsumerGroup c in
  time.IsZero (AckDeadline c) = false →
  newTS (AckDeadline c) ≠ 0 →
  entries s (queueDone q g) ≠ [] ∨ entries s (queueInProgressByID q g) ≠ [] →
  eventOfID x ∈ (runPlan (QGetActions c now) s).2 →
  (QAck (mkQAck cl q g (mkEvent x contents)) now'
        ((runPlan (QGetActions c now) s).1, p)).2
  = (bool_decide (newTS now' ≤ newTS (AckDeadline c)), None).
Proof.
  intros q g Hdl Hts Hhist Hin.
  assert (Hl : (runPlan (QGetActions c now) s).1 !! (queueInProgressByAck q g, x)
               = Some (newTS (AckDeadline c))).
  { assert (Hcommit : ∀ s0 acc, eventOfID x ∈ acc →
              (exec (inProgOrDone c) s0 acc).1 !! (queueInProgressByAck q g, x)
              = Some (newTS (AckDeadline c))).
    { intros s0 acc Hacc. unfold inProgOrDone. rewrite Hdl. cbn [negb].
      rewrite !exec_addTo. cbn [exec fst EventSets Score]. fold q g.
      rewrite (addTo_lookup_in _ _ _ _ (eventOfID x) Hacc).
      unfold addScore.
      destruct (Z.eqb_spec (NewTS (AckDeadline c)) 0) as [E|_]; [by destruct Hts|done]. }
    revert Hin. rewrite (runPlan_QGet newTS newEvent setEvent getEvent). fold q g.
    destruct (rangeSelect (oldestSelect now) [] _) as [|e1 t1];
      [|cbn [fst snd]; apply Hcommit].
    match goal with
    | |- context [rangeSelect (mkRangeSelect 0 true 0 false true 1 false) ?b ?l] =>
      destruct (rangeSelect (mkRangeSelect 0 true 0 false true 1 false) b l)
        as [|e2 t2]; [|cbn [fst snd]; apply Hcommit]
    end.
    cbn [snd].
    assert (Hguard : bool_decide (entries s (queueDone q g) = [])
                     && bool_decide (entries s (queueInProgressByID q g) = [])
                     = false).
    { destruct Hhist as [Hd|Hi].
      - by rewrite (bool_decide_eq_false_2 _ Hd).
      - rewrite (bool_decide_eq_false_2 _ Hi). apply andb_false_r. }
    rewrite Hguard. by intros ?%elem_of_nil. }
  revert Hl. generalize (runPlan (QGetActions c now) s).1. intros s1 Hl.
  rewrite QAck_model. cbn [fst snd].
  rewrite (runPlan_QAck newTS newEvent setEvent getEvent).
  cbn [QAckQueue QAckConsumerGroup QAckEvent EvID].
  match goal with
  | |- context [match ?t with Some _ => _ | None => _ end] =>
    replace t with (Some (newTS (AckDeadline c))) by (symmetry; exact Hl)
  end.
  destruct (newTS now' <=? newTS (AckDeadline c)) eqn:Hle; cbn [snd]; f_equal;
    apply bool_decide_ext; cbn [length].
  - apply Z.leb_le in Hle. lia.
  - apply Z.leb_gt in Hle. lia.
Qed.
End ModelAcks.

(** ** The two in-progress collections *)

Lemma inProgress_keys_agree (q g q0 g0 : string) :
  queueInProgressByID q g = queueInProgressByID q0 g0
  ↔ queueInProgressByAck q g = queueInProgressByAck q0 g0.
Proof.
  unfold queueInProgressByID, queueInProgressByAck.
  split; intros Heq; by simplify_eq.
Qed.

Section ModelAligned.
Context {P : Type}.
Variable newTS : time.Time -> TS.
Variable newEvent : time.Time -> string -> P -> P * (Event * option error).
Variable setEvent : Event -> time.Duration -> P -> P * option error.
Variable getEvent : ID -> P -> P * (Event * option error).
Let mc : Core (Sets * P) := modelCore newTS newEvent setEvent getEvent.
#[local] Existing Instance mc.

Lemma inProgOrDone_aligned (c : QGetCommand) (s : Sets) (acc : list Event)
    (q g : string) :
  inProgAligned s q g → inProgAligned (exec (inProgOrDone c) s acc).1 q g.
Proof.
  intros Hal x. unfold inProgOrDone.
  destruct (negb _); rewrite !exec_addTo; cbn [exec fst EventSets Score].
  - rewrite (addTo_lookup_other [queueInProgressByAck _ _])
      by (by apply not_elem_of_cons; split; [|apply not_elem_of_nil]).
    rewrite (addTo_is_Some (queueInProgressByID _ _)).
    rewrite (addTo_is_Some (queueInProgressByAck _ _)).
    rewrite (addTo_lookup_other [queueInProgressByID _ _])
      by (by apply not_elem_of_cons; split; [|apply not_elem_of_nil]).
    rewrite (Hal x), inProgress_keys_agree. done.
  - rewrite !addTo_lookup_other
      by (by apply not_elem_of_cons; split; [|apply not_elem_of_nil]).
    apply Hal.
Qed.

(** X8: The plans of [QAdd], [QGet] and [QAck] keep the two in-progress
    collections of every queue and group aligned: when they hold the same
    events before a plan runs, they hold the same events after it. *)
Theorem inProgress_stay_aligned (s : Sets) (q g : string) :
  inProgAligned s q g →
  (∀ (c : QAddCommand) e, inProgAligned (runPlan (QAddActions c e) s).1 q g)
  ∧ (∀ (c : QGetCommand) now, inProgAligned (runPlan (QGetActions c now) s).1 q g)
  ∧ (∀ (c : QAckCommand) now, inProgAligned (runPlan (QAckActions c now) s).1 q g).
Proof.
  intros Hal. split_and!.
  - intros c e x. rewrite runPlan_QAdd. cbn [fst].
    rewrite !lookup_insert_ne by done. apply Hal.
  - intros c now. rewrite (runPlan_QGet newTS newEvent setEvent getEvent).
    assert (Hredo : ∀ acc,
              inProgAligned
                (removeFrom [queueRedo (QGetQueue c) (QGetConsumerGroup c)] acc s)
                q g).
    { intros acc x.
      rewrite !removeFrom_lookup_other
        by (by apply not_elem_of_cons; split; [|apply not_elem_of_nil]).
      apply Hal. }
    destruct (rangeSelect (oldestSelect now) [] _) as [|e1 t1];
      [|by apply inProgOrDone_aligned].
    match goal with
    | |- context [rangeSelect (mkRangeSelect 0 true 0 false true 1 false) ?b ?l] =>
      destruct (rangeSelect (mkRangeSelect 0 true 0 false true 1 false) b l)
        as [|e2 t2]; [done|by apply inProgOrDone_aligned]
    end.
  - intros c now x. rewrite (runPlan_QAck newTS newEvent setEvent getEvent).
    destruct (s !! (_, _)) as [sc|]; [|apply Hal].
    destruct (newTS now <=? sc); [|apply Hal]. cbn [fst].
    rewrite !lookup_insert_ne by done.
    rewrite (lookup_delete_ne _ (queueInProgressByAck _ _, _)) by done.
    rewrite lookup_delete_is_Some.
    rewrite (lookup_delete_is_Some _ (queueInProgressByAck _ _, _)).
    rewrite (lookup_delete_ne _ (queueInProgressByID _ _, _)) by done.
    rewrite (Hal x). split.
    + intros [Hne Hs]. split; [|done]. intros Heq. apply Hne.
      pose proof (f_equal fst Heq) as Hk. pose proof (f_equal snd Heq) as Hx.
      cbn [fst snd] in Hk, Hx. apply inProgress_keys_agree in Hk. by rewrite Hk, Hx.
    + intros [Hne Hs]. split; [|done]. intros Heq. apply Hne.
      pose proof (f_equal fst Heq) as Hk. pose proof (f_equal snd Heq) as Hx.
      cbn [fst snd] in Hk, Hx. apply inProgress_keys_agree in Hk. by rewrite Hk, Hx.
Qed.
End ModelAligned.

(** ** What a plan reads *)

Lemma NoDup_entries (s : Sets) (es : EventSet) : NoDup (entries s es).
Proof.
  unfold entries. pose proof (NoDup_fst_map_to_list s) as Hnd.
  induction (map_to_list s) as [|[[k i] sc] l IH]; [constructor|].
  cbn in Hnd. apply NoDup_cons in Hnd as [Hnot Hnd]. cbn.
  destruct (decide (k = es)) as [->|]; [|by apply IH].
  apply NoDup_cons. split; [|by apply IH].
  intros Hin. apply list_elem_of_omap in Hin as ([[k' i'] sc'] & Hin & Heq).
  cbn in Heq. destruct (decide (k' = es)) as [->|]; [|discriminate].
  injection Heq as -> ->. apply Hnot. apply list_elem_of_fmap.
  by exists ((es, i), sc).
Qed.

Lemma ordered_agree (s s' : Sets) (es : EventSet) :
  (∀ x, s !! (es, x) = s' !! (es, x)) → ordered s es = ordered s' es.
Proof.
  intros Hag.
  assert (Hanti : AntiSymm eq entry_le) by (intros a b; apply entry_le_antisym).
  apply (StronglySorted_unique entry_le); try apply ordered_sorted.
  unfold ordered. rewrite !merge_sort_Permutation.
  apply NoDup_Permutation; try apply NoDup_entries.
  intros en. by rewrite !elem_of_entries, Hag.
Qed.

Lemma entries_nil_agree (s s' : Sets) (es : EventSet) :
  (∀ x, s !! (es, x) = s' !! (es, x)) →
  bool_decide (entries s es = []) = bool_decide (entries s' es = []).
Proof.
  intros Hag. apply bool_decide_ext. rewrite !entries_nil.
  split; intros Hn x; [by rewrite <- Hag | by rewrite Hag].
Qed.

Lemma rangeSelect_nil (r : QueryEventRangeSelect) (acc : list Event) :
  rangeSelect r acc [] = [].
Proof.
  unfold rangeSelect, pickRange, limited. cbn.
  destruct (MinFromInput r); [destruct (minScore acc)|];
    destruct (Reverse r), (Limit r =? 0); try done; by rewrite ?take_nil.
Qed.

Section ModelGroups.
Context {P : Type}.
Variable newTS : time.Time -> TS.
Variable newEvent : time.Time -> string -> P -> P * (Event * option error).
Variable setEvent : Event -> time.Duration -> P -> P * option error.
Variable getEvent : ID -> P -> P * (Event * option error).
Let mc : Core (Sets * P) := modelCore newTS newEvent setEvent getEvent.
#[local] Existing Instance mc.

(** What the plan of [QGet] hands back depends on the available collection
    of its queue and on the redo, in-progress-by-id and done collections of
    its group only. *)
Lemma QGet_reads (c : QGetCommand) (now : time.Time) (s s' : Sets) :
  let q := QGetQueue c in
  let g := QGetConsumerGroup c in
  (∀ es x, es ∈ [queueAvailable q; queueRedo q g; queueInProgressByID q g;
                 queueDone q g] →
           s !! (es, x) = s' !! (es, x)) →
  (runPlan (QGetActions c now) s).2 = (runPlan (QGetActions c now) s').2.
Proof.
  intros q g Hag.
  assert (Ha : ∀ x, s !! (queueAvailable q, x) = s' !! (queueAvailable q, x)).
  { intros x. apply Hag. repeat first [by left | right]. }
  assert (Hr : ∀ x, s !! (queueRedo q g, x) = s' !! (queueRedo q g, x)).
  { intros x. apply Hag. repeat first [by left | right]. }
  assert (Hi : ∀ x, s !! (queueInProgressByID q g, x)
                    = s' !! (queueInProgressByID q g, x)).
  { intros x. apply Hag. repeat first [by left | right]. }
  assert (Hd : ∀ x, s !! (queueDone q g, x) = s' !! (queueDone q g, x)).
  { intros x. apply Hag. repeat first [by left | right]. }
  rewrite !(runPlan_QGet newTS newEvent setEvent getEvent). fold q g.
  rewrite (ordered_agree s s' _ Ha), (ordered_agree s s' _ Hr),
    (ordered_agree s s' _ Hi), (ordered_agree s s' _ Hd),
    (entries_nil_agree s s' _ Hi), (entries_nil_agree s s' _ Hd).
  destruct (rangeSelect (oldestSelect now) [] _) as [|e1 t1]; [|done].
  match goal with
  | |- context [rangeSelect (mkRangeSelect 0 true 0 false true 1 false) ?b ?l] =>
    by destruct (rangeSelect (mkRangeSelect 0 true 0 false true 1 false) b l)
  end.
Qed.

(** The plans of [QGet] and [QAck] leave the collections of every other
    queue and group, and every available collection, as they were. *)
Lemma QGet_keeps_foreign (c0 : QGetCommand) (now0 : time.Time) (s : Sets)
    (es : EventSet) (x : ID) :
  SetRole es = Available
  ∨ (SetQueue es, SetGroup es) ≠ (QGetQueue c0, Some (QGetConsumerGroup c0)) →
  (runPlan (QGetActions c0 now0) s).1 !! (es, x) = s !! (es, x).
Proof.
  intros Hforeign.
  assert (Hne : ∀ r, r ≠ Available →
            es ≠ mkEventSet (QGetQueue c0) r (QGetQueue c0)
                   (Some (QGetConsumerGroup c0))).
  { intros r Hr ->. destruct Hforeign as [Hav|Hq]; [by destruct Hr|by destruct Hq]. }
  rewrite (runPlan_QGet newTS newEvent setEvent getEvent).
  assert (Hcommit : ∀ s0 acc,
            (exec (inProgOrDone c0) s0 acc).1 !! (es, x) = s0 !! (es, x)).
  { intros s0 acc. apply (inProgOrDone_lookup_other newTS newEvent setEvent getEvent).
    repeat (apply not_elem_of_cons; split; [by apply Hne|]). apply not_elem_of_nil. }
  destruct (rangeSelect (oldestSelect now0) [] _) as [|e1 t1].
  - match goal with
    | |- context [rangeSelect (mkRangeSelect 0 true 0 false true 1 false) ?b ?l] =>
      destruct (rangeSelect (mkRangeSelect 0 true 0 false true 1 false) b l)
        as [|e2 t2]; [done|]
    end.
    cbn [fst]. apply Hcommit.
  - cbn [fst]. rewrite Hcommit. apply removeFrom_lookup_other.
    apply not_elem_of_cons. split; [by apply Hne|apply not_elem_of_nil].
Qed.

Lemma QAck_keeps_foreign (c0 : QAckCommand) (now0 : time.Time) (s : Sets)
    (es : EventSet) (x : ID) :
  SetRole es = Available
  ∨ (SetQueue es, SetGroup es) ≠ (QAckQueue c0, Some (QAckConsumerGroup c0)) →
  (runPlan (QAckActions c0 now0) s).1 !! (es, x) = s !! (es, x).
Proof.
  intros Hforeign.
  assert (Hne : ∀ r y, r ≠ Available →
            (es, x) ≠ (mkEventSet (QAckQueue c0) r (QAckQueue c0)
                         (Some (QAckConsumerGroup c0)), y)).
  { intros r y Hr Heq. pose proof (f_equal fst Heq) as Hes. cbn [fst] in Hes.
    subst es. destruct Hforeign as [Hav|Hq]; [by destruct Hr|by destruct Hq]. }
  rewrite (runPlan_QAck newTS newEvent setEvent getEvent).
  destruct (s !! (_, _)) as [sc|]; [|done].
  destruct (newTS now0 <=? sc); [|done]. cbn [fst].
  rewrite lookup_insert_ne by (apply not_eq_sym; by apply Hne).
  by rewrite !lookup_delete_ne by (apply not_eq_sym; by apply Hne).
Qed.

(** X9: Consumer groups do not interfere: what the plan of [QGet] hands back to
    a group is the same after another group, or a group of another queue,
    ran a [QGet] or a [QAck]. *)
Theorem groups_are_independent (c : QGetCommand) (now : time.Time) (s : Sets) :
  (∀ (c0 : QGetCommand) now0,
      (QGetQueue c0, QGetConsumerGroup c0) ≠ (QGetQueue c, QGetConsumerGroup c) →
      (runPlan (QGetActions c now) (runPlan (QGetActions c0 now0) s).1).2
      = (runPlan (QGetActions c now) s).2)
  ∧ (∀ (c0 : QAckCommand) now0,
      (QAckQueue c0, QAckConsumerGroup c0) ≠ (QGetQueue c, QGetConsumerGroup c) →
      (runPlan (QGetActions c now) (runPlan (QAckActions c0 now0) s).1).2
      = (runPlan (QGetActions c now) s).2).
Proof.
  assert (Hread : ∀ es q0 g0,
            (q0, g0) ≠ (QGetQueue c, QGetConsumerGroup c) →
            es ∈ [queueAvailable (QGetQueue c);
                  queueRedo (QGetQueue c) (QGetConsumerGroup c);
                  queueInProgressByID (QGetQueue c) (QGetConsumerGroup c);
                  queueDone (QGetQueue c) (QGetConsumerGroup c)] →
            SetRole es = Available ∨ (SetQueue es, SetGroup es) ≠ (q0, Some g0)).
  { intros es q0 g0 Hne Hin.
    apply elem_of_cons in Hin as [->|Hin]; [by left|]. right.
    repeat (apply elem_of_cons in Hin as [->|Hin]);
      try (by apply elem_of_nil in Hin);
      cbn; intros Heq; apply Hne; injection Heq; intros; congruence. }
  split.
  - intros c0 now0 Hne. apply QGet_reads. intros es x Hin.
    apply QGet_keeps_foreign. by eapply Hread.
  - intros c0 now0 Hne. apply QGet_reads. intros es x Hin.
    apply QAck_keeps_foreign. by eapply Hread.
Qed.

Lemma QAdd_model_added (ca : QAddCommand) (s s1 : Sets) (p p1 : P) (id : ID) :
  QAdd ca (s, p) = ((s1, p1), (id, None)) →
  s1 = <[(queueAvailable (QAddQueue ca), id) := id]> s.
Proof.
  unfold QAdd. cbn [NewEvent SetEvent Query mc modelCore].
  unfold onServices, modelQuery. cbn [fst snd].
  destruct (newEvent _ _ p) as [p2 [e [x1|]]]; cbv beta iota; cbn [fst snd];
    [discriminate|].
  destruct (setEvent e (30 * time.Second) p2) as [p3 [x2|]]; cbv beta iota;
    cbn [fst snd]; [discriminate|].
  rewrite (runPlan_QAdd (H := modelCore newTS newEvent setEvent getEvent)).
  cbv beta iota. cbn [fst snd]. intros ?. by simplify_eq.
Qed.

(** X10: On a queue without events, the event that a successful [QAdd] added is
    what the first [QGet] of a group without history hands back, with or
    without deadline: [QGet] returns what [GetEvent] gives for the new id. *)
Theorem QAdd_then_QGet (ca : QAddCommand) (c : QGetCommand) (now : time.Time)
    (s s1 : Sets) (p p1 : P) (id : ID) :
  let q := QGetQueue c in
  let g := QGetConsumerGroup c in
  QAddQueue ca = q →
  entries s (queueAvailable q) = [] →
  entries s (queueRedo q g) = [] →
  entries s (queueInProgressByID q g) = [] →
  entries s (queueDone q g) = [] →
  QAdd ca (s, p) = ((s1, p1), (id, None)) →
  (runPlan (QGetActions c now) s1).2 = [eventOfID id]
  ∧ (QGet c now (s1, p1)).2 = (getEvent id p1).2.
Proof.
  intros q g Hq Havail Hredo Hinprog Hdone Hadd.
  apply QAdd_model_added in Hadd. rewrite Hq in Hadd. subst s1.
  set (s1 := <[(queueAvailable q, id) := id]> s).
  assert (Hother : ∀ es, es ≠ queueAvailable q → entries s es = [] →
                         entries s1 es = []).
  { intros es Hne Hnil. apply entries_nil. intros x. unfold s1.
    rewrite lookup_insert_ne by congruence. by apply entries_nil. }
  assert (Hfirst : posSelect [0; 0] (ordered s1 (queueAvailable q)) = [eventOfID id]).
  { assert (Hin : (id, id) ∈ ordered s1 (queueAvailable q)).
    { apply elem_of_ordered. unfold s1. cbn. apply lookup_insert_eq. }
    destruct (ordered s1 (queueAvailable q)) as [|[y sy] l] eqn:Hl;
      [by apply elem_of_nil in Hin|].
    assert (Hy : (y, sy) ∈ ordered s1 (queueAvailable q)) by (rewrite Hl; left).
    apply elem_of_ordered in Hy. cbn in Hy. unfold s1 in Hy.
    destruct (decide (y = id)) as [->|Hne]; [done|].
    rewrite lookup_insert_ne in Hy by congruence.
    apply entries_nil with (x := y) in Havail. by rewrite Havail in Hy. }
  assert (Hrun : runPlan (QGetActions c now) s1 = (s1, [eventOfID id])).
  { rewrite (runPlan_QGet newTS newEvent setEvent getEvent). fold q g.
    rewrite (proj2 (ordered_nil s1 (queueRedo q g))) by (by apply Hother).
    rewrite (proj2 (ordered_nil s1 (queueInProgressByID q g))) by (by apply Hother).
    rewrite (proj2 (ordered_nil s1 (queueDone q g))) by (by apply Hother).
    rewrite !rangeSelect_nil. cbn [app List.filter].
    change (rangeSelect (mkRangeSelect 0 true 0 false true 1 false) []
              (ordered s1 (queueAvailable q))) with (@nil Event).
    rewrite !bool_decide_eq_true_2 by (by apply Hother). cbn [andb].
    by rewrite Hfirst. }
  split; [by rewrite Hrun|].
  by rewrite (modelQuery_QGet newTS newEvent setEvent getEvent _ _ _ _ _ _ _ Hrun).
Qed.
End ModelGroups.

(** ** The further properties at concrete inputs *)

Lemma is_Some_ordered (s : Sets) (es : EventSet) (x : ID) :
  is_Some (s !! (es, x)) ↔ x ∈ (ordered s es).*1.
Proof.
  rewrite list_elem_of_fmap. split.
  - intros [sc Hl]. exists (x, sc). split; [done|]. by apply elem_of_ordered.
  - intros ([y sc] & -> & Hin). apply elem_of_ordered in Hin. by exists sc.
Qed.

Lemma Query_error_is_passed_on_witness :
  let st : Sets * list Event := (example.sets [(7, 7)] [] [] [] [], []) in
  @QGet _ example.noStore (example.get 0) 1 st = (st, (zeroEvent, Some "no store"))
  ∧ @QAck _ example.noStore (example.ack 7) 1 st = (st, (false, Some "no store")).
Proof.
  intros st.
  destruct (@Query_error_is_passed_on _ example.noStore "no store")
    as (_ & Hget & Hack).
  split.
  - apply (Hget (example.get 0) 1 st st []). reflexivity.
  - apply (Hack (example.ack 7) 1 st st []). reflexivity.
Defined.

Lemma QGet_nothing_found_nothing_changed_witness :
  let s := example.sets [(7, 7)] [] [] [] [(7, 7)] in
  (runPlan (@QGetActions _ example.core (example.get 0) 1) s).1 = s.
Proof.
  intros s.
  apply (QGet_nothing_found_nothing_changed example.newTS example.newEvent
           example.setEvent example.getEvent (example.get 0) 1 s).
  vm_compute. reflexivity.
Defined.

Lemma QGet_frame_witness :
  let s := example.sets [(5, 5); (6, 6)] [] [] [(5, 5)] [] in
  (runPlan (@QGetActions _ example.core (example.get 100) 1) s).1
    !! (queueAvailable "q", 5) = s !! (queueAvailable "q", 5).
Proof.
  intros s.
  apply (QGet_frame example.newTS example.newEvent example.setEvent
           example.getEvent (example.get 100) 1 s (queueAvailable "q") 5).
  repeat (apply not_elem_of_cons; split; [discriminate|]). apply not_elem_of_nil.
Defined.

Lemma QAck_frame_witness :
  let s := example.sets [(7, 7)] [(7, 7); (8, 8)] [(7, 100); (8, 100)] [] [] in
  (runPlan (@QAckActions _ example.core (example.ack 7) 50) s).1
    !! (queueInProgressByAck "q" "g", 8)
  = s !! (queueInProgressByAck "q" "g", 8).
Proof.
  intros s.
  apply (QAck_frame example.newTS example.newEvent example.setEvent
           example.getEvent (example.ack 7) 50 s (queueInProgressByAck "q" "g", 8)).
  repeat (apply not_elem_of_cons; split; [discriminate|]). apply not_elem_of_nil.
Defined.

Lemma QAck_twice_witness :
  let s := example.sets [(7, 7)] [(7, 7)] [(7, 100)] [] [] in
  let st1 := (@QAck _ example.core (example.ack 7) 50 (s, [])).1 in
  @QAck _ example.core (example.ack 7) 60 st1 = (st1, (false, None)).
Proof.
  intros s st1.
  apply (QAck_twice example.newTS example.newEvent example.setEvent
           example.getEvent (example.ack 7) 50 60 s []).
  vm_compute. reflexivity.
Defined.

Lemma QGet_then_QAck_witness :
  let s := example.sets [(5, 5); (6, 6)] [] [] [] [(5, 5)] in
  let s1 := (runPlan (@QGetActions _ example.core (example.get 100) 1) s).1 in
  (@QAck _ example.core (mkQAck (mkClient "c2") "q" "g" (mkEvent 6 "")) 50 (s1, [])).2
  = (true, None)
  ∧ (@QAck _ example.core (mkQAck (mkClient "c2") "q" "g" (mkEvent 6 "")) 101
       (s1, [])).2
    = (false, None).
Proof.
  intros s s1.
  assert (Hrun : eventOfID 6
                 ∈ (runPlan (@QGetActions _ example.core (example.get 100) 1) s).2).
  { replace (runPlan (@QGetActions _ example.core (example.get 100) 1) s).2
      with [eventOfID 6] by (vm_compute; reflexivity). left. }
  assert (Hhist : entries s (queueDone "q" "g") ≠ []
                  ∨ entries s (queueInProgressByID "q" "g") ≠ []).
  { left. vm_compute. discriminate. }
  assert (Hts : example.newTS 100 ≠ 0) by (vm_compute; discriminate).
  split.
  - exact (QGet_then_QAck example.newTS example.newEvent example.setEvent
             example.getEvent (example.get 100) 1 50 s [] 6 (mkClient "c2") ""
             eq_refl Hts Hhist Hrun).
  - exact (QGet_then_QAck example.newTS example.newEvent example.setEvent
             example.getEvent (example.get 100) 1 101 s [] 6 (mkClient "c2") ""
             eq_refl Hts Hhist Hrun).
Defined.

Lemma inProgress_stay_aligned_witness :
  let s := example.sets [(7, 7); (8, 8)] [(7, 7)] [(7, 100)] [] [] in
  inProgAligned s "q" "g"
  ∧ inProgAligned (runPlan (@QGetActions _ example.core (example.get 200) 1) s).1
      "q" "g".
Proof.
  intros s.
  assert (Hid : ordered s (queueInProgressByID "q" "g") = [(7, 7)])
    by (vm_compute; reflexivity).
  assert (Hack : ordered s (queueInProgressByAck "q" "g") = [(7, 100)])
    by (vm_compute; reflexivity).
  assert (Hal : inProgAligned s "q" "g").
  { intros x.
    rewrite (is_Some_ordered s (queueInProgressByID "q" "g") x), Hid.
    rewrite (is_Some_ordered s (queueInProgressByAck "q" "g") x), Hack.
    reflexivity. }
  split; [exact Hal|].
  destruct (inProgress_stay_aligned example.newTS example.newEvent example.setEvent
              example.getEvent s "q" "g" Hal) as (_ & Hget & _).
  exact (Hget (example.get 200) 1).
Defined.

Lemma QAdd_then_QGet_witness :
  let s := example.sets [] [] [] [] [] in
  let r := @QAdd _ example.core (mkQAdd (mkClient "c1") "q" 60 "x") (s, []) in
  (@QGet _ example.core (example.get 0) 1 r.1).2 = (example.getEvent 60 r.1.2).2.
Proof.
  intros s r.
  assert (Hid : r.2 = (60, None)) by (vm_compute; reflexivity).
  assert (Hadd : @QAdd _ example.core (mkQAdd (mkClient "c1") "q" 60 "x") (s, [])
                 = ((r.1.1, r.1.2), (60, None))).
  { rewrite <- Hid. fold r. by destruct r as [[s1 p1] res]. }
  assert (Hnil : ∀ es, entries s es = []).
  { intros es. apply entries_nil. intros x. apply lookup_empty. }
  destruct (QAdd_then_QGet example.newTS example.newEvent example.setEvent
              example.getEvent (mkQAdd (mkClient "c1") "q" 60 "x") (example.get 0) 1
              s r.1.1 [] r.1.2 60 eq_refl (Hnil _) (Hnil _) (Hnil _) (Hnil _) Hadd)
    as [_ Hget].
  destruct r as [[s1 p1] res]. exact Hget.
Defined.

Lemma groups_are_independent_witness :
  let s := example.sets [(5, 5); (6, 6)] [] [] [(5, 5)] [] in
  let other := mkQGet (mkClient "c2") "q" "h" 0 in
  (runPlan (@QGetActions _ example.core (example.get 0) 1)
     (runPlan (@QGetActions _ example.core other 1) s).1).2
  = (runPlan (@QGetActions _ example.core (example.get 0) 1) s).2.
Proof.
  intros s other.
  destruct (groups_are_independent example.newTS example.newEvent example.setEvent
              example.getEvent (example.get 0) 1 s) as [Hget _].
  apply (Hget other 1). discriminate.
Defined.
